(** * ubrowse: the codepoint index, the block index and the navigation loops

    A shallow embedding of [ubrowse.c] (with the declarations of [data.h]).

    Conventions.
    - C [int] values are integers of [Z].  Every quantity the modelled
      functions compute on is an index into the dataset, a 21-bit codepoint
      or a terminal dimension, so the arithmetic is written without
      wrap-around; [unsigned long] results of [strtoul] carry their
      saturation and their modulus explicitly.  Where a property ranges
      over arguments of [lookupchar] or offsets of [offsetchar], it is
      stated for those on which the [int] arithmetic of the source does
      not overflow.
    - C integer division truncates: it is [Z.quot].
    - The extern objects of [data.h] ([charlist], [blocklist],
      [charnamebuffer], [unicodeversion]) are the fields of a [dataset];
      [charlistsize] and [blocklistsize] are the lengths of the arrays.
    - The file-scope variables of [ubrowse.c] and the function-static
      [lastsubstring] are the fields of [globals]; functions that write
      them take and return the record.
    - The terminal is a list of pending input events, consumed by [getch],
      and a counter of the calls of [beep]. *)

From Equations Require Import Equations.
From Stdlib Require Import ZArith List Lia String Ascii Bool Sorted.
Import ListNotations.
Local Open Scope Z_scope.

(** ** data.h *)

Record charinfo : Type := mkchar {
  nameoffset : Z;   (* offset of official glyph name *)
  namesize : Z;     (* length of the glyph name *)
  uchar : Z;        (* the codepoint value *)
  combining : bool  (* true if this is a combining character *)
}.

Record blockinfo : Type := mkblock {
  from : Z;         (* first codepoint in the block *)
  to : Z;           (* last codepoint in the block *)
  name : string     (* official block name *)
}.

Record dataset : Type := mkdata {
  charlist : list charinfo;
  blocklist : list blockinfo;
  charnamebuffer : string;
  unicodeversion : option string
}.

Definition charlistsize (D : dataset) : Z := Z.of_nat (List.length (charlist D)).
Definition blocklistsize (D : dataset) : Z := Z.of_nat (List.length (blocklist D)).

Definition nochar : charinfo := mkchar 0 0 0 false.
Definition noblock : blockinfo := mkblock 0 0 EmptyString.

(** [charlist[n]] and [blocklist[i]]. *)
Definition char_at (D : dataset) (n : Z) : charinfo :=
  nth (Z.to_nat n) (charlist D) nochar.
Definition block_at (D : dataset) (i : Z) : blockinfo :=
  nth (Z.to_nat i) (blocklist D) noblock.

(** The value of the highest possible Unicode codepoint. *)
Definition lastucharval : Z := 0x10FFFF.

(** The smallest width columns are permitted to shrink to. *)
Definition mincolumnwidth : Z := 8.

(** ** lookupchar *)

Section Lookup.
Variable D : dataset.

(** The [while (bottom - top > 1)] loop of [lookupchar] from its head, with
    the [return] that follows it. *)
Equations? lookupchar_from (uc top bottom : Z) : Z
  by wf (Z.to_nat (bottom - top)) lt :=
  lookupchar_from uc top bottom with Z_gt_dec (bottom - top) 1 := {
    | left _ =>
        if uchar (char_at D (Z.quot (top + bottom) 2)) <? uc then
          lookupchar_from uc (Z.quot (top + bottom) 2) bottom
        else if uchar (char_at D (Z.quot (top + bottom) 2)) >? uc then
          lookupchar_from uc top (Z.quot (top + bottom) 2)
        else Z.quot (top + bottom) 2
    | right _ =>
        if uc - uchar (char_at D top) <? uchar (char_at D bottom) - uc
        then top else bottom }.
Proof.
  all: pose proof (Z.quot_rem' (top + bottom) 2) as Hq;
       pose proof (Z.rem_bound_abs (top + bottom) 2 ltac:(lia)); lia.
Qed.

Definition lookupchar (uc : Z) : Z :=
  lookupchar_from uc 0 (charlistsize D - 1).

(** ** offsetchar *)

Definition offsetchar (pos charoffset : Z) : Z :=
  lookupchar (uchar (char_at D pos) + charoffset).

End Lookup.

(** ** C strings and <ctype.h>, <stdlib.h>

    A [char const *] is the [string] of its characters before the
    terminating NUL; a key or character code is a [Z]. *)

Definition chr (c : ascii) : Z := Z.of_N (N_of_ascii c).

Definition NUL : ascii := Ascii.zero.

(** The C string held by a buffer: its contents up to the first NUL. *)
Fixpoint cstr (s : string) : string :=
  match s with
  | EmptyString => EmptyString
  | String c s' => if Ascii.eqb c NUL then EmptyString else String c (cstr s')
  end.

(** [memchr(p, c, size) != NULL] on the [size] bytes held by [s]. *)
Fixpoint memchr (s : string) (c : ascii) : bool :=
  match s with
  | EmptyString => false
  | String a s' => Ascii.eqb a c || memchr s' c
  end.

(** [strstr(hay, needle) != NULL]. *)
Fixpoint strstr (hay needle : string) : bool :=
  String.prefix needle hay ||
  match hay with
  | EmptyString => false
  | String _ hay' => strstr hay' needle
  end.

(** [*s], the first character of a C string (the NUL when it is empty). *)
Definition first_char (s : string) : ascii :=
  match s with
  | EmptyString => NUL
  | String c _ => c
  end.

Definition isspace (c : Z) : bool :=
  (c =? 32) || ((9 <=? c) && (c <=? 13)).

Definition isxdigit (c : Z) : bool :=
  ((48 <=? c) && (c <=? 57)) || ((97 <=? c) && (c <=? 102)) ||
  ((65 <=? c) && (c <=? 70)).

Definition xdigitval (c : Z) : Z :=
  if (48 <=? c) && (c <=? 57) then c - 48
  else if (97 <=? c) && (c <=? 102) then c - 87
  else c - 55.

Definition tolower (c : Z) : Z :=
  if (65 <=? c) && (c <=? 90) then c + 32 else c.

Definition ULONG_MAX : Z := 2 ^ 64 - 1.

Fixpoint skip_space (s : string) : string :=
  match s with
  | String c s' => if isspace (chr c) then skip_space s' else s
  | EmptyString => s
  end.

(** The digits of the subject sequence: the exact value accumulated so far
    and what follows the last digit. *)
Fixpoint hex_digits (s : string) (acc : Z) : Z * string :=
  match s with
  | String c s' =>
      if isxdigit (chr c) then hex_digits s' (acc * 16 + xdigitval (chr c))
      else (acc, s)
  | EmptyString => (acc, s)
  end.

Definition starts_xdigit (s : string) : bool :=
  match s with
  | String c _ => isxdigit (chr c)
  | EmptyString => false
  end.

(** What a call [strtoul(nptr, &endptr, 16)] reports. *)
Record strtoul_result : Type := mkstrtoul {
  st_value : Z;          (* the returned unsigned long *)
  st_end : string;       (* the string at endptr *)
  st_converted : bool;   (* endptr != nptr *)
  st_erange : bool       (* errno set to ERANGE by this call *)
}.

(** [strtoul] in base 16: white space, an optional sign, an optional 0x or
    0X that is followed by a digit, then the digits.  A value that does not
    fit saturates to [ULONG_MAX]; a minus sign negates modulo 2^64. *)
Definition strtoul16 (nptr : string) : strtoul_result :=
  let s1 := skip_space nptr in
  let '(neg, s2) :=
    match s1 with
    | String c s' =>
        if chr c =? chr "-" then (true, s')
        else if chr c =? chr "+" then (false, s')
        else (false, s1)
    | EmptyString => (false, s1)
    end in
  let s3 :=
    match s2 with
    | String z (String x s') =>
        if (chr z =? chr "0") && ((chr x =? chr "x") || (chr x =? chr "X"))
           && starts_xdigit s'
        then s' else s2
    | _ => s2
    end in
  if starts_xdigit s3 then
    let '(v, rest) := hex_digits s3 0 in
    if v >? ULONG_MAX then mkstrtoul ULONG_MAX rest true true
    else mkstrtoul (if neg then (2 ^ 64 - v) mod 2 ^ 64 else v) rest true false
  else mkstrtoul 0 nptr false false.

(** ** The file-scope variables and the terminal *)

Record globals : Type := mkglobals {
  emptyblocks : option (list bool);   (* NULL until emptyblocksinit() *)
  columncount : Z;
  xtermsize : Z;
  ytermsize : Z;
  lastrow : Z;
  accentchar : Z;
  showcombining : bool;
  lastsubstring : string              (* static in findcharbyname() *)
}.

Definition initial_globals : globals :=
  mkglobals None 2 0 0 0 0x00B7 true EmptyString.

Definition set_emptyblocks (g : globals) (e : option (list bool)) : globals :=
  mkglobals e (columncount g) (xtermsize g) (ytermsize g) (lastrow g)
            (accentchar g) (showcombining g) (lastsubstring g).
Definition set_columncount (g : globals) (c : Z) : globals :=
  mkglobals (emptyblocks g) c (xtermsize g) (ytermsize g) (lastrow g)
            (accentchar g) (showcombining g) (lastsubstring g).
Definition set_termsize (g : globals) (y x : Z) : globals :=
  mkglobals (emptyblocks g) (columncount g) x y (y - 1)
            (accentchar g) (showcombining g) (lastsubstring g).
Definition set_accentchar (g : globals) (a : Z) : globals :=
  mkglobals (emptyblocks g) (columncount g) (xtermsize g) (ytermsize g)
            (lastrow g) a (showcombining g) (lastsubstring g).
Definition set_showcombining (g : globals) (b : bool) : globals :=
  mkglobals (emptyblocks g) (columncount g) (xtermsize g) (ytermsize g)
            (lastrow g) (accentchar g) b (lastsubstring g).
Definition set_lastsubstring (g : globals) (s : string) : globals :=
  mkglobals (emptyblocks g) (columncount g) (xtermsize g) (ytermsize g)
            (lastrow g) (accentchar g) (showcombining g) s.

(** What ncurses knows: the size of [stdscr], the terminal's kill
    character, and how often [beep] was called. *)
Record screen : Type := mkscreen {
  scr_rows : Z;
  scr_cols : Z;
  kill_char : Z;
  beeps : nat
}.

(** An input event waiting for [getch]: a key code, or a resize of the
    terminal to the given size (read as [KEY_RESIZE]). *)
Inductive event : Type :=
| Key (k : Z)
| Resize (rows cols : Z).

Definition ERR : Z := -1.
Definition KEY_DOWN : Z := 258.
Definition KEY_UP : Z := 259.
Definition KEY_LEFT : Z := 260.
Definition KEY_RIGHT : Z := 261.
Definition KEY_BACKSPACE : Z := 263.
Definition KEY_NPAGE : Z := 338.
Definition KEY_PPAGE : Z := 339.
Definition KEY_ENTER : Z := 343.
Definition KEY_RESIZE : Z := 410.

Definition beep (scr : screen) : screen :=
  mkscreen (scr_rows scr) (scr_cols scr) (kill_char scr) (S (beeps scr)).

(** [getch] on a pending event. *)
Definition deliver (e : event) (scr : screen) : Z * screen :=
  match e with
  | Key k => (k, scr)
  | Resize r c => (KEY_RESIZE, mkscreen r c (kill_char scr) (beeps scr))
  end.

(** Get the dimensions of the terminal. *)
Definition measurescreen (g : globals) (scr : screen) : globals :=
  set_termsize g (scr_rows scr) (scr_cols scr).

(** Translate a key event from ncurses. *)
Definition translatekey (key : Z) (g : globals) (scr : screen) : Z * globals :=
  if key =? KEY_RESIZE then (chr "012", measurescreen g scr)
  else if key =? KEY_RIGHT then (chr ">", g)
  else if key =? KEY_LEFT then (chr "<", g)
  else if key =? KEY_DOWN then (chr "+", g)
  else if key =? KEY_UP then (chr "-", g)
  else if key =? chr " " then (chr "F", g)
  else if key =? KEY_NPAGE then (chr "F", g)
  else if key =? KEY_PPAGE then (chr "B", g)
  else if key =? KEY_BACKSPACE then (chr "B", g)
  else if key =? 8 then (chr "B", g)
  else if key =? 127 then (chr "B", g)
  else if key =? KEY_ENTER then (chr "010", g)
  else if key =? 13 then (chr "010", g)
  else if key =? chr "h" then (chr "?", g)
  else if key =? chr "H" then (chr "?", g)
  else (tolower key, g).

(** ** The codepoint and block indexes *)

Section Index.
Variable D : dataset.

(** The bytes [charnamebuffer + charlist[pos].nameoffset] of length
    [charlist[pos].namesize]. *)
Definition name_at (pos : Z) : string :=
  substring (Z.to_nat (nameoffset (char_at D pos)))
            (Z.to_nat (namesize (char_at D pos))) (charnamebuffer D).

(** The test of one entry in [findcharbyname]: [memchr] for the first
    character, then [strstr] on the NUL-terminated copy of the name. *)
Definition name_matches (substring : string) (pos : Z) : bool :=
  memchr (name_at pos) (first_char substring) &&
  strstr (cstr (name_at pos)) substring.

(** The [for (;;)] loop of [findcharbyname], entered with the current
    value of [pos]: the returned index and the saved search string
    afterwards ([strcpy] on a match; when [substring] is [lastsubstring]
    itself the copy is skipped and the string is the same).  [None]: the
    loop is still running after [fuel] iterations. *)
Fixpoint findchar_loop (fuel : nat) (substring : string)
    (startpos direction pos : Z) (last : string) : option (Z * string) :=
  match fuel with
  | O => None
  | S fuel' =>
      let pos := pos + direction in
      let pos := if pos >=? charlistsize D then 0
                 else if pos <? 0 then charlistsize D - 1
                 else pos in
      if name_matches substring pos then Some (pos, substring)
      else if pos =? startpos then Some (-1, last)
      else findchar_loop fuel' substring startpos direction pos last
  end.

(** [findcharbyname]: the returned index (negative when there is none) and
    the saved search string afterwards.  [substring] is [None] for NULL;
    [sizeof buf] is 256. *)
Definition findcharbyname (fuel : nat) (substring : option string)
    (startpos direction : Z) (last : string) : option (Z * string) :=
  match substring with
  | Some s =>
      if Z.of_nat (String.length s) >=? 256 - 1 then Some (-1, last)
      else findchar_loop fuel s startpos direction startpos last
  | None =>
      if negb (Ascii.eqb (first_char last) NUL) then
        findchar_loop fuel last startpos direction startpos last
      else Some (-1, last)
  end.

(** One iteration of the loop of [emptyblocksinit]: the flag of a block. *)
Definition emptyblock_flag (b : blockinfo) : bool :=
  let n := lookupchar D (from b) in
  if (uchar (char_at D n) >=? from b) && (uchar (char_at D n) <=? to b)
  then false
  else if (n + 1 <? charlistsize D) &&
          (uchar (char_at D (n + 1)) >=? from b) &&
          (uchar (char_at D (n + 1)) <=? to b)
  then false
  else true.

Definition emptyblocksinit (g : globals) : globals :=
  match emptyblocks g with
  | Some _ => g
  | None => set_emptyblocks g (Some (map emptyblock_flag (blocklist D)))
  end.

(** [emptyblocks[i]] *)
Definition emptyblock_at (g : globals) (i : Z) : bool :=
  match emptyblocks g with
  | Some flags => nth (Z.to_nat i) flags false
  | None => false
  end.

Definition skip_uplus (input : string) : string :=
  match input with
  | String u (String p rest) =>
      if (chr u =? chr "U") && (chr p =? chr "+") then rest else input
  | _ => input
  end.

(** Parse a string containing a hex value and return the index of that
    codepoint, or -1. *)
Definition readuchar (input : string) : Z :=
  let input := skip_uplus input in
  let r := strtoul16 input in
  if negb (String.eqb (st_end r) EmptyString) || negb (st_converted r)
     || ((st_value r =? ULONG_MAX) && st_erange r)
  then -1
  else if st_value r >? lastucharval then -1
  else lookupchar D (st_value r).

(** [scan_lc str] is what the conversion [%lc] of [sscanf] reads from
    [str] in the current locale: the first character and the bytes after
    it, or nothing when [str] is empty or does not start with a valid
    multibyte character. *)
Variable scan_lc : string -> option (Z * string).

Definition readsinglecharstring (str : string) : Z :=
  match scan_lc str with
  | Some (ch, rest) =>
      if String.eqb rest EmptyString then lookupchar D ch else -1
  | None => -1
  end.

End Index.

(** ** Text input and the hex jump *)

(** The [while (!done)] loop of [doinputui] over the pending events.  The
    buffer holds the characters written so far; [inputlen] says how many
    of them count, and a character is written at position [inputlen].
    [getch] fails with [ERR] when no event is left.  Result: the returned
    length (-1 on cancel or when [getch] fails), the string left in
    [input], and the state after.  A resize to fewer cells than the prompt
    makes [inputlen] negative, and the source then writes in front of the
    buffer, which a list cannot show: what is proved of every input of
    this loop is proved for terminals that stay as wide as the prompt. *)
Fixpoint doinputui_loop (validchar : Z -> bool) (inputsize promptlen : Z)
    (evs : list event) (input : list ascii) (inputlen inputmax : Z)
    (g : globals) (scr : screen)
    : Z * string * globals * screen * list event :=
  match evs with
  | [] => (-1, string_of_list_ascii input, g, scr, [])   (* getch() == ERR *)
  | e :: evs' =>
      let '(ch, scr) := deliver e scr in
      if ch =? ERR then (-1, string_of_list_ascii input, g, scr, evs')
      else if validchar ch then
        if inputlen <? inputmax then
          doinputui_loop validchar inputsize promptlen evs'
            (firstn (Z.to_nat inputlen) input ++ [ascii_of_N (Z.to_N ch)])
            (inputlen + 1) inputmax g scr
        else
          doinputui_loop validchar inputsize promptlen evs'
            input inputlen inputmax g (beep scr)
      else
        let ch := if ch =? kill_char scr then 21 else ch in
        if (ch =? KEY_ENTER) || (ch =? 13) || (ch =? 10) then
          (inputlen,
           string_of_list_ascii (firstn (Z.to_nat inputlen) input),
           g, scr, evs')
        else if (ch =? KEY_BACKSPACE) || (ch =? 8) || (ch =? 127) then
          if negb (inputlen =? 0) then
            doinputui_loop validchar inputsize promptlen evs'
              input (inputlen - 1) inputmax g scr
          else
            doinputui_loop validchar inputsize promptlen evs'
              input inputlen inputmax g (beep scr)
        else if ch =? 21 then
          doinputui_loop validchar inputsize promptlen evs'
            input 0 inputmax g scr
        else if ch =? 7 then
          (-1, string_of_list_ascii input, g, scr, evs')
        else if ch =? KEY_RESIZE then
          let g := measurescreen g scr in
          let inputmax := xtermsize g - promptlen in
          let inputmax :=
            if inputmax >? inputsize - 1 then inputsize - 1 else inputmax in
          let inputlen :=
            if inputlen >=? inputmax then inputmax else inputlen in
          doinputui_loop validchar inputsize promptlen evs'
            input inputlen inputmax g scr
        else
          doinputui_loop validchar inputsize promptlen evs'
            input inputlen inputmax g scr
  end.

Definition doinputui (inputsize : Z) (prompt : string)
    (validchar : Z -> bool) (g : globals) (scr : screen)
    (evs : list event) : Z * string * globals * screen * list event :=
  let promptlen := Z.of_nat (String.length prompt) in
  let inputmax := xtermsize g - promptlen in
  let inputmax :=
    if inputmax >? inputsize - 1 then inputsize - 1 else inputmax in
  doinputui_loop validchar inputsize promptlen evs [] 0 inputmax g scr.

(** Get a string from the user containing a hexadecimal number and return
    the index for that codepoint ([sizeof buf] is 7). *)
Definition jumpui (D : dataset) (index : Z) (g : globals) (scr : screen)
    (evs : list event) : Z * globals * screen * list event :=
  let '(n, buf, g, scr, evs) := doinputui 7 "U+" isxdigit g scr evs in
  if n <? 0 then (index, g, scr, evs)
  else
    let value := st_value (strtoul16 buf) in
    if value >? lastucharval then (index, g, beep scr, evs)
    else (lookupchar D value, g, scr, evs).

(** ** The block list *)

(** How a user-interface function ends: it returns an index, the program
    exits, or the input runs dry while the loop is still asking for keys. *)
Inductive uiresult : Type :=
| UIReturn (index : Z) (g : globals) (scr : screen) (rest : list event)
| UIExit (status : Z)
| UINoInput (g : globals) (scr : screen).

Definition EXIT_SUCCESS : Z := 0.
Definition EXIT_FAILURE : Z := 1.

Section BlockSelect.
Variable D : dataset.

(** The scan [for (i = 0 ; i < blocklistsize ; ++i) if (blocklist[i].to >=
    charlist[index].uchar) break;] over the blocks from [i] on. *)
Fixpoint first_block_from (bl : list blockinfo) (i uc : Z) : Z :=
  match bl with
  | [] => i
  | b :: bl' => if to b >=? uc then i else first_block_from bl' (i + 1) uc
  end.

(** The [while (!done)] loop of [blockselectui] with the [return] after
    it.  [drawblocklist] only draws. *)
Fixpoint blockselect_loop (evs : list event) (index selected : Z)
    (g : globals) (scr : screen) : uiresult :=
  let selected := if selected <? 0 then 0 else selected in
  let selected :=
    if selected >=? blocklistsize D then blocklistsize D - 1 else selected in
  match evs with
  | [] => UINoInput g scr
  | e :: evs' =>
      let '(key, scr) := deliver e scr in
      let '(cmd, g) := translatekey key g scr in
      if cmd =? chr "+" then blockselect_loop evs' index (selected + 1) g scr
      else if cmd =? chr "-" then
        blockselect_loop evs' index (selected - 1) g scr
      else if cmd =? chr "F" then
        blockselect_loop evs' index (selected + (ytermsize g - 1)) g scr
      else if cmd =? chr "B" then
        blockselect_loop evs' index (selected - (ytermsize g - 1)) g scr
      else if cmd =? chr "{" then blockselect_loop evs' index 0 g scr
      else if cmd =? chr "}" then
        blockselect_loop evs' index (blocklistsize D) g scr
      else if cmd =? chr "?" then
        (* showblockhelptext(): (void)getch() *)
        match evs' with
        | [] => UINoInput g scr
        | e2 :: evs'' =>
            blockselect_loop evs'' index selected g (snd (deliver e2 scr))
        end
      else if cmd =? chr "v" then
        (* showversion() *)
        match unicodeversion D with
        | Some (String _ _) =>
            match evs' with
            | [] => UINoInput g scr
            | e2 :: evs'' =>
                blockselect_loop evs'' index selected g (snd (deliver e2 scr))
            end
        | _ => blockselect_loop evs' index selected g (beep scr)
        end
      else if cmd =? chr "012" then blockselect_loop evs' index selected g scr
      else if cmd =? chr "q" then UIReturn index g scr evs'
      else if cmd =? 7 then UIReturn index g scr evs'
      else if cmd =? 3 then UIExit EXIT_SUCCESS
      else if cmd =? chr "010" then
        if emptyblock_at g selected then
          blockselect_loop evs' index selected g (beep scr)
        else
          UIReturn (lookupchar D (from (block_at D selected))) g scr evs'
      else blockselect_loop evs' index selected g scr
  end.

Definition blockselectui (index : Z) (g : globals) (scr : screen)
    (evs : list event) : uiresult :=
  let g := emptyblocksinit D g in
  let selected := first_block_from (blocklist D) 0 (uchar (char_at D index)) in
  blockselect_loop evs index selected g scr.

(** ** The main table *)

(** The statements of the loop of [mainui] from its head to the call of
    [drawtable]: the index, the globals and [tablesize] the table is drawn
    with. *)
Definition mainui_clamp (index : Z) (g : globals) : Z * globals * Z :=
  let index := if index <? 0 then 0 else index in
  let g :=
    if columncount g <? 1 then set_columncount g 1
    else if columncount g >? Z.quot (xtermsize g - 1) (mincolumnwidth + 1)
    then set_columncount g (Z.quot (xtermsize g - 1) (mincolumnwidth + 1))
    else g in
  let tablesize := (ytermsize g - 1) * columncount g in
  let index :=
    if index >? charlistsize D - tablesize then charlistsize D - tablesize
    else index in
  (index, g, tablesize).

End BlockSelect.

(** ** The command line *)

(** What [getopt_long] hands to the loop of [readcmdline], one per call. *)
Inductive optevent : Type :=
| OptAccent (optarg : string)   (* 'a' *)
| OptNoAccent                   (* 'A' *)
| OptHelp                       (* 'h' *)
| OptVersion                    (* 'v' *)
| OptUnknown.                   (* '?' *)

(** How [readcmdline] ends: it returns the initial index, it exits after
    printing to stdout, [die] prints its message to stderr and exits with
    [EXIT_FAILURE], or the name search never comes back. *)
Inductive cmdresult : Type :=
| CmdReturn (ch : Z) (g : globals)
| CmdExit (status : Z)
| CmdDie (message : string)
| CmdHang.

Definition dquote : string := String (ascii_of_nat 34) EmptyString.

(** The message of the call of [die] for an invalid start value. *)
Definition invalid_start (str : string) : string :=
  ("Invalid start value: " ++ dquote ++ str ++ dquote ++ ".")%string.

(** [optarg[0]] as a [wchar_t]: plain [char] is signed. *)
Definition char_value (c : ascii) : Z :=
  if chr c >=? 128 then chr c - 256 else chr c.

Section CmdLine.
Variable D : dataset.
Variable scan_lc : string -> option (Z * string).

(** The body of [case 'a']: the globals afterwards, or the message of
    [die].  An empty [optarg] has no [optarg[1]]; it is handed to
    [readuchar], which turns it down. *)
Definition accent_option (optarg : string) (g : globals)
    : globals + string :=
  match optarg with
  | String c EmptyString => inl (set_accentchar g (char_value c))
  | _ =>
      let a := readuchar D optarg in
      if a <? 0 then
        inr ("invalid accent character value: " ++ dquote ++ optarg ++ dquote)%string
      else inl (set_accentchar g (uchar (char_at D a)))
  end.

(** The [while ((ch = getopt_long(...)) != EOF)] loop. *)
Fixpoint readcmdline_options (opts : list optevent) (g : globals)
    : globals + cmdresult :=
  match opts with
  | [] => inl g
  | OptAccent optarg :: opts' =>
      match accent_option optarg g with
      | inl g' => readcmdline_options opts' g'
      | inr msg => inr (CmdDie msg)
      end
  | OptNoAccent :: opts' => readcmdline_options opts' (set_showcombining g false)
  | OptHelp :: _ => inr (CmdExit EXIT_SUCCESS)
  | OptVersion :: _ => inr (CmdExit EXIT_SUCCESS)
  | OptUnknown :: _ => inr (CmdDie "Try --help for more information.")
  end.

(** The positional argument [argv[optind]]. *)
Definition readcmdline_start (str : string) (g : globals) : cmdresult :=
  let ch := readsinglecharstring D scan_lc str in
  if ch <? 0 then
    let ch := readuchar D str in
    if ch <? 0 then
      match findcharbyname D (S (List.length (charlist D))) (Some str) 0 1
                           (lastsubstring g) with
      | None => CmdHang
      | Some (ch, last) =>
          if ch <? 0 then
            CmdDie (invalid_start str)
          else CmdReturn ch (set_lastsubstring g last)
      end
    else CmdReturn ch g
  else CmdReturn ch g.

(** [readcmdline]: [opts] are the options in the order [getopt_long]
    reports them, [args] the arguments from [argv[optind]] on. *)
Definition readcmdline (opts : list optevent) (args : list string)
    (g : globals) : cmdresult :=
  match readcmdline_options opts g with
  | inr r => r
  | inl g =>
      match args with
      | [] => CmdReturn 0 g
      | str :: more =>
          match readcmdline_start str g with
          | CmdReturn ch g =>
              match more with
              | [] => CmdReturn ch g
              | _ :: _ =>
                  CmdDie ("Bad command-line argument." ++
                          String (ascii_of_nat 10) "Try --help for more information.")%string
              end
          | r => r
          end
      end
  end.

(** [main] up to the call of [mainui]. *)
Inductive startup : Type :=
| StartUI (startpos : Z) (g : globals)          (* ioinit() was called *)
| ExitNoUI (status : Z) (stderr : option string) (* exit before ioinit() *)
| HangNoUI.

Definition main_startup (opts : list optevent) (args : list string)
    (scr : screen) : startup :=
  match readcmdline opts args initial_globals with
  | CmdReturn ch g => StartUI ch (measurescreen g scr)
  | CmdExit status => ExitNoUI status None
  | CmdDie msg => ExitNoUI EXIT_FAILURE (Some msg)
  | CmdHang => HangNoUI
  end.

End CmdLine.

(** ** Searching from the main table *)

Definition isprint (c : Z) : bool := (32 <=? c) && (c <=? 126).

(** [tolower] applied to every character of a string. *)
Fixpoint lower_string (s : string) : string :=
  match s with
  | EmptyString => EmptyString
  | String c s' =>
      String (ascii_of_N (Z.to_N (tolower (chr c)))) (lower_string s')
  end.

(** How [searchui] ends: it returns an index; or the loop
    [while (n--) searchstring[n] = ...] writes outside [searchstring];
    or [findcharbyname] does not come back. *)
Inductive searchresult : Type :=
| SearchReturn (index : Z) (g : globals) (scr : screen) (rest : list event)
| SearchFault
| SearchHang.

Section Search.
Variable D : dataset.

(** The end of [searchui]: [if (n < 0) { beep(); return index; } return n;] *)
Definition searchui_finish (index : Z) (found : option (Z * string))
    (g : globals) (scr : screen) (rest : list event) : searchresult :=
  match found with
  | None => SearchHang
  | Some (n, last) =>
      if n <? 0 then SearchReturn index (set_lastsubstring g last) (beep scr) rest
      else SearchReturn n (set_lastsubstring g last) scr rest
  end.

(** [searchui]; [sizeof searchstring] is 256.  After an empty line, [n] is
    the answer of the repeated search and the lowercasing loop runs over
    [searchstring[n-1]] down to [searchstring[0]], which holds the
    terminating NUL; then the empty string is searched for. *)
Definition searchui (index repeat : Z) (g : globals) (scr : screen)
    (evs : list event) : searchresult :=
  let fuel := S (List.length (charlist D)) in
  if negb (repeat =? 0) then
    searchui_finish index
      (findcharbyname D fuel None index repeat (lastsubstring g)) g scr evs
  else
    let '(n, searchstring, g, scr, evs) := doinputui 256 "/" isprint g scr evs in
    if n <? 0 then SearchReturn index g scr evs
    else if n =? 0 then
      match findcharbyname D fuel None index 1 (lastsubstring g) with
      | None => SearchHang
      | Some (r, last) =>
          if (r <? 0) || (r >? 256) then SearchFault
          else
            searchui_finish index
              (findcharbyname D fuel (Some EmptyString) index 1 last)
              (set_lastsubstring g last) scr evs
      end
    else
      searchui_finish index
        (findcharbyname D fuel (Some (lower_string searchstring)) index 1
                        (lastsubstring g)) g scr evs.

End Search.

(** ** Help and version *)

(** [(void)getch()]: one pending event, if there is one, is taken. *)
Definition getch_discard (evs : list event) (scr : screen)
    : list event * screen :=
  match evs with
  | [] => ([], scr)
  | e :: evs' => (evs', snd (deliver e scr))
  end.

(** [showversion]: waits for a key when there is a version string, beeps
    otherwise. *)
Definition showversion (D : dataset) (evs : list event) (scr : screen)
    : list event * screen :=
  match unicodeversion D with
  | Some (String _ _) => getch_discard evs scr
  | _ => (evs, beep scr)
  end.

(** ** Drawing the block list *)

(** A line of the block list: its screen row, the block shown, whether it
    is highlighted and whether it is marked empty. *)
Record blockrow : Type := mkblockrow {
  row_y : Z;
  row_block : Z;
  row_standout : bool;
  row_empty : bool
}.

Section DrawBlocks.
Variable D : dataset.

(** The first block shown by [drawblocklist]. *)
Definition drawblocklist_top (selected : Z) (g : globals) : Z :=
  let top := selected - Z.quot (ytermsize g) 2 in
  let top := if top <? 0 then 0 else top in
  if top + lastrow g >? blocklistsize D then blocklistsize D - lastrow g
  else top.

(** The lines drawn by the loop
    [for (i = top ; i < blocklistsize && i < top + lastrow ; ++i)]. *)
Definition drawblocklist (selected : Z) (g : globals) : list blockrow :=
  let top := drawblocklist_top selected g in
  map (fun k =>
         let i := top + Z.of_nat k in
         mkblockrow (i - top) i (i =? selected) (emptyblock_at g i))
      (seq 0 (Z.to_nat (Z.min (blocklistsize D) (top + lastrow g) - top))).

End DrawBlocks.

(** ** Drawing the table *)

Definition hexdigit (d : Z) : ascii :=
  if d <? 10 then ascii_of_N (Z.to_N (48 + d)) else ascii_of_N (Z.to_N (55 + d)).

(** The digits of [v] in base 16, most significant first, in front of
    [acc]; an [unsigned int] has at most 8 of them. *)
Fixpoint hex_of (fuel : nat) (v : Z) (acc : string) : string :=
  match fuel with
  | O => acc
  | S fuel' =>
      let acc := String (hexdigit (v mod 16)) acc in
      if v / 16 =? 0 then acc else hex_of fuel' (v / 16) acc
  end.

Fixpoint zero_pad (n : nat) (s : string) : string :=
  match n with
  | O => s
  | S n' => String "0" (zero_pad n' s)
  end.

(** What [sprintf(buf, " %04X", v)] writes. *)
Definition sprintf_04X (v : Z) : string :=
  let digits := hex_of 8 v EmptyString in
  String " " (zero_pad (4 - String.length digits) digits).

(** A cell of a name as drawn: a character of the name or the ellipsis
    U+2026. *)
Inductive namecell : Type :=
| NameChar (c : ascii)
| Ellipsis.

(** What [drawentry] puts on the screen: the label at [x], the cells of
    the name from [x + 6] on when the name is drawn, and the glyph with the
    column, relative to [x], where it is put. *)
Record entrydraw : Type := mkentrydraw {
  ed_label : string;
  ed_name : option (list namecell);
  ed_glyph : option (Z * list Z)
}.

Section DrawEntry.
Variable D : dataset.

(** [wcwidth] of the C library in the current locale. *)
Variable wcwidth : Z -> Z.

(** The string at [charnamebuffer + offset]. *)
Definition buffer_at (offset : Z) : string :=
  substring (Z.to_nat offset)
            (String.length (charnamebuffer D) - Z.to_nat offset)
            (charnamebuffer D).

(** The characters written by [addnstr(str, n)]: at most [n], up to the
    NUL. *)
Definition addnstr (str : string) (n : Z) : list namecell :=
  map NameChar (firstn (Z.to_nat n) (list_ascii_of_string (cstr str))).

(** The width [drawentry] reserves for the glyph. *)
Definition glyph_width (index : Z) (g : globals) : Z :=
  let width := wcwidth (uchar (char_at D index)) in
  let width := if width <? 0 then 0 else width in
  if combining (char_at D index) && showcombining g && (width =? 0) then 1
  else width.

(** The cells of the name in [n] cells of room. *)
Definition name_cells (index n : Z) : list namecell :=
  let name := nameoffset (char_at D index) in
  let size := namesize (char_at D index) in
  if n >=? size then addnstr (buffer_at name) size
  else if n >? 6 then
    addnstr (buffer_at name) (Z.quot n 2) ++ [Ellipsis] ++
    (let n := n - (Z.quot n 2 + 1) in addnstr (buffer_at (name + size - n)) n)
  else
    [Ellipsis] ++
    (if n >? 1 then addnstr (buffer_at (name + size - n + 1)) (n - 1) else []).

(** [drawentry(y, x, colwidth, index)]; [None] when it returns FALSE. *)
Definition drawentry (colwidth index : Z) (g : globals) : option entrydraw :=
  if colwidth <? mincolumnwidth then None
  else
    let buf := sprintf_04X (uchar (char_at D index)) in
    let n := Z.of_nat (String.length buf) in
    let label := substring (Z.to_nat (n - 5)) 5 buf in
    let width := glyph_width index g in
    let name :=
      if n + 3 <? colwidth then Some (name_cells index (colwidth - 7 - width))
      else None in
    if width =? 0 then Some (mkentrydraw label name None)
    else
      let wch :=
        if combining (char_at D index) && showcombining g
        then [accentchar g; uchar (char_at D index)]
        else [uchar (char_at D index)] in
      Some (mkentrydraw label name (Some (colwidth - width, wch))).

End DrawEntry.

(** A call [drawentry(y, x, colwidth, index)]. *)
Record entrycall : Type := mkentrycall {
  call_y : Z;
  call_x : Z;
  call_colwidth : Z;
  call_index : Z
}.

(** How [drawtable] ends: [xtermsize / columncount] divides by zero; or the
    loop over the columns never ends, its step being no more than 0; or it
    returns [i] after the calls of [drawentry] and the status line with the
    first and last codepoint shown. *)
Inductive drawresult : Type :=
| DrawFault
| DrawHang
| Drawn (calls : list entrycall) (status : Z * Z) (i : Z).

(** The calls of [for (y = 0 ; y < lastrow ; ++y) drawentry(y, x,
    colwidth - 1, i++)]. *)
Definition drawtable_column (colwidth lastrow x i : Z) : list entrycall :=
  map (fun k => mkentrycall (Z.of_nat k) x (colwidth - 1) (i + Z.of_nat k))
      (seq 0 (Z.to_nat lastrow)).

(** The loop [for (x = 0 ; x <= xtermsize - colwidth ; x += colwidth)] of
    [drawtable] from its head, with [xsize] for [xtermsize] and [rows] for
    [lastrow]: the calls and the final [i], or [None] when the loop does
    not end. *)
Equations? drawtable_columns (xsize colwidth rows x i : Z)
    : option (list entrycall * Z)
  by wf (Z.to_nat (xsize - colwidth - x + 1)) lt :=
  drawtable_columns xsize colwidth rows x i
    with Z_le_dec x (xsize - colwidth) := {
    | right _ => Some ([], i)
    | left _ with Z_gt_dec colwidth 0 := {
        | right _ => None
        | left _ =>
            match drawtable_columns xsize colwidth rows
                    (x + colwidth) (i + Z.of_nat (Z.to_nat rows)) with
            | Some (calls, i') =>
                Some (drawtable_column colwidth rows x i ++ calls, i')
            | None => None
            end } }.
Proof. lia. Qed.

Definition drawtable (D : dataset) (index : Z) (g : globals) : drawresult :=
  if columncount g =? 0 then DrawFault
  else
    let colwidth := Z.quot (xtermsize g) (columncount g) in
    match drawtable_columns (xtermsize g) colwidth (lastrow g) 0 index with
    | None => DrawHang
    | Some (calls, i) =>
        Drawn calls (uchar (char_at D index), uchar (char_at D (i - 1))) i
    end.

(** ** The main loop *)

(** How [mainui] ends: it returns; the program exits; the input runs dry
    while the loop is asking for keys; a division by zero or a write outside
    a buffer happens; a loop inside does not end; or the model runs out of
    fuel. *)
Inductive mainresult : Type :=
| MainReturn (g : globals) (scr : screen) (rest : list event)
| MainExit (status : Z)
| MainNoInput (index : Z) (g : globals) (scr : screen)
| MainFault
| MainHang
| MainOutOfFuel.

Section Main.
Variable D : dataset.

(** The [for (;;)] loop of [mainui]; one unit of fuel per iteration. *)
Fixpoint mainui_loop (fuel : nat) (evs : list event) (index : Z)
    (g : globals) (scr : screen) : mainresult :=
  match fuel with
  | O => MainOutOfFuel
  | S fuel' =>
      let '(index, g, tablesize) := mainui_clamp D index g in
      match drawtable D index g with
      | DrawFault => MainFault
      | DrawHang => MainHang
      | Drawn _ _ _ =>
          match evs with
          | [] => MainNoInput index g scr
          | e :: evs' =>
              let '(key, scr) := deliver e scr in
              let '(cmd, g) := translatekey key g scr in
              if cmd =? chr "+" then mainui_loop fuel' evs' (index + 1) g scr
              else if cmd =? chr "-" then
                mainui_loop fuel' evs' (index - 1) g scr
              else if cmd =? chr ">" then
                mainui_loop fuel' evs' (index + (ytermsize g - 1)) g scr
              else if cmd =? chr "<" then
                mainui_loop fuel' evs' (index - (ytermsize g - 1)) g scr
              else if cmd =? chr "F" then
                mainui_loop fuel' evs' (index + tablesize) g scr
              else if cmd =? chr "B" then
                mainui_loop fuel' evs' (index - tablesize) g scr
              else if cmd =? chr "}" then
                mainui_loop fuel' evs' (offsetchar D index 0x1000) g scr
              else if cmd =? chr "{" then
                mainui_loop fuel' evs' (offsetchar D index (- 0x1000)) g scr
              else if (cmd =? chr "/") || (cmd =? chr "n") || (cmd =? chr "p")
              then
                match searchui D index
                        (if cmd =? chr "/" then 0
                         else if cmd =? chr "n" then 1 else -1)
                        g scr evs' with
                | SearchReturn index g scr rest =>
                    mainui_loop fuel' rest index g scr
                | SearchFault => MainFault
                | SearchHang => MainHang
                end
              else if (cmd =? chr "u") || (cmd =? chr "s") then
                let '(index, g, scr, rest) := jumpui D index g scr evs' in
                mainui_loop fuel' rest index g scr
              else if (cmd =? chr "j") || (cmd =? chr "b") then
                match blockselectui D index g scr evs' with
                | UIReturn index g scr rest =>
                    mainui_loop fuel' rest index g scr
                | UIExit status => MainExit status
                | UINoInput g scr => MainNoInput index g scr
                end
              else if cmd =? chr "[" then
                mainui_loop fuel' evs' index
                            (set_columncount g (columncount g + 1)) scr
              else if cmd =? chr "]" then
                mainui_loop fuel' evs' index
                            (set_columncount g (columncount g - 1)) scr
              else if cmd =? chr "?" then
                let '(rest, scr) := getch_discard evs' scr in
                mainui_loop fuel' rest index g scr
              else if cmd =? chr "v" then
                let '(rest, scr) := showversion D evs' scr in
                mainui_loop fuel' rest index g scr
              else if cmd =? chr "012" then
                mainui_loop fuel' evs' index g scr
              else if cmd =? chr "q" then MainReturn g scr evs'
              else if cmd =? 3 then MainExit EXIT_SUCCESS
              else mainui_loop fuel' evs' index g scr
          end
      end
  end.

(** [mainui] on the pending events: every iteration reads one of them. *)
Definition mainui (index : Z) (g : globals) (scr : screen)
    (evs : list event) : mainresult :=
  mainui_loop (S (List.length evs)) evs index g scr.

End Main.

(** ** A fragment of the Unicode 10 data

    The assigned codepoints around the start of the Sinhala block, with
    their names, and the three blocks around them. *)

Definition sample_names : string :=
  "malayalam letter chillu lmalayalam letter chillu ksinhala sign anusvarayasinhala sign visargayasinhala letter ayannasinhala letter aayanna".

Definition sample : dataset :=
  mkdata
    [mkchar 0 25 0x0D7E false;
     mkchar 25 25 0x0D7F false;
     mkchar 50 23 0x0D82 false;
     mkchar 73 22 0x0D83 false;
     mkchar 95 21 0x0D85 false;
     mkchar 116 22 0x0D86 false]
    [mkblock 0x0D00 0x0D7F "Malayalam";
     mkblock 0x0D80 0x0DFF "Sinhala";
     mkblock 0x0E00 0x0E7F "Thai"]
    sample_names
    (Some "10.0.0"%string).

(** An 80x24 terminal whose kill character is ^U. *)
Definition vt80x24 : screen := mkscreen 24 80 21 0.

(** The locale "C": every byte below 128 is one character. *)
Definition scan_lc_C (str : string) : option (Z * string) :=
  match str with
  | String c rest => if chr c <? 128 then Some (chr c, rest) else None
  | EmptyString => None
  end.

(** ** Specification vocabulary *)

(** The codepoints are strictly increasing along [charlist]. *)
Definition sorted (D : dataset) : Prop :=
  StronglySorted Z.lt (map uchar (charlist D)).

Definition valid_index (D : dataset) (k : Z) : Prop :=
  0 <= k < charlistsize D.

(** The distance of entry [k] from the codepoint [x]. *)
Definition dist (D : dataset) (x k : Z) : Z :=
  Z.abs (uchar (char_at D k) - x).


(** No entry of [charlist] has its codepoint in the block. *)
Definition block_empty (D : dataset) (b : blockinfo) : Prop :=
  forall k, valid_index D k ->
            ~ (from b <= uchar (char_at D k) <= to b).

(** The position reached from [startpos] after [k] steps in [direction],
    going around the list. *)
Definition circular (D : dataset) (startpos direction k : Z) : Z :=
  (startpos + direction * k) mod charlistsize D.

(** What the loop of [lookupchar] knows about its bounds. *)
Definition lookup_inv (D : dataset) (x top bottom : Z) : Prop :=
  0 <= top /\ top <= bottom /\ bottom < charlistsize D /\
  (top = 0 \/ uchar (char_at D top) < x) /\
  (bottom = charlistsize D - 1 \/ x < uchar (char_at D bottom)).

(** The result is nearest to [x], and among entries at the same distance
    it is the one with the highest index. *)
Definition lookup_post (D : dataset) (x r : Z) : Prop :=
  valid_index D r /\
  forall k, valid_index D k ->
            dist D x r <= dist D x k /\ (dist D x k = dist D x r -> k <= r).

(** The string [findcharbyname] searches for. *)
Definition searched (substring : option string) (last : string) : string :=
  match substring with
  | Some s => s
  | None => last
  end.

(** What one run of the search loop may answer: nothing matched on the
    whole round and the saved string is untouched, or the first match met
    on the way, which becomes the saved string. *)
Definition search_answer (D : dataset) (startpos direction : Z)
    (s last : string) (pos : Z) (last' : string) : Prop :=
  (pos = -1 /\ last' = last /\
   forall k, 1 <= k <= charlistsize D ->
             name_matches D s (circular D startpos direction k) = false)
  \/
  (exists k, 1 <= k <= charlistsize D /\
             pos = circular D startpos direction k /\ last' = s /\
             name_matches D s pos = true /\
             forall k', 1 <= k' < k ->
               name_matches D s (circular D startpos direction k') = false).



(** A dataset whose only entry has a name of 255 letters. *)
Definition long_name : string := string_of_list_ascii (repeat "a"%char 255).

Definition longname : dataset :=
  mkdata [mkchar 0 255 0x41 false] [] long_name None.

(** ** More specification vocabulary *)

(** The character a key code is stored as. *)
Definition key_ascii (ch : Z) : ascii := ascii_of_N (Z.to_N ch).

(** The number written by a list of hex digits. *)
Definition hexvalue (cs : list Z) : Z :=
  fold_left (fun acc c => acc * 16 + xdigitval c) cs 0.

(** The blocks follow one another without overlap. *)
Definition blocks_ordered (D : dataset) : Prop :=
  StronglySorted (fun a b => to a < from b) (blocklist D).

Definition valid_block (D : dataset) (i : Z) : Prop :=
  0 <= i < blocklistsize D.

(** The name buffer holds no NUL. *)
Definition names_nul_free (D : dataset) : Prop :=
  memchr (charnamebuffer D) NUL = false.

(** What a finished call of [doinputui] guarantees: the length fits the
    buffer; when it is not negative, the string has that length and holds
    only characters the prompt accepts; and no event is put back. *)
Definition input_ok (validchar : Z -> bool) (inputsize : Z)
    (evs : list event) (r : Z * string * globals * screen * list event)
    : Prop :=
  let '(n, s, _, _, rest) := r in
  n <= inputsize - 1 /\
  (0 <= n ->
   Z.of_nat (String.length s) = n /\
   forall c, In c (list_ascii_of_string s) -> validchar (chr c) = true) /\
  (List.length rest <= List.length evs)%nat.

(** What [blockselectui] may answer when entered at [index]: that index or
    a valid one, after reading at least one event; or an exit with
    [EXIT_SUCCESS]. *)
Definition ui_ok (D : dataset) (index : Z) (evs : list event)
    (r : uiresult) : Prop :=
  match r with
  | UIReturn i _ _ rest =>
      (i = index \/ valid_index D i) /\ (List.length rest < List.length evs)%nat
  | UIExit status => status = EXIT_SUCCESS
  | UINoInput _ _ => True
  end.

(** What [mainui] may answer on a finite input: it never needs more
    iterations than there are events, and it exits with [EXIT_SUCCESS]
    only. *)
Definition main_ok (r : mainresult) : Prop :=
  match r with
  | MainOutOfFuel => False
  | MainExit status => status = EXIT_SUCCESS
  | _ => True
  end.

(** A dataset of twelve consecutive codepoints without names. *)
Definition twelve : dataset :=
  mkdata (map (fun k => mkchar 0 0 (0x41 + Z.of_nat k) false) (seq 0 12))
         [] EmptyString None.

(** A terminal font in which every character is one cell wide. *)
Definition wcwidth_one (c : Z) : Z := 1.

(** ** The text of a hex codepoint *)

(** Every character of the string satisfies [p]. *)
Fixpoint all_chars (p : Z -> bool) (s : string) : bool :=
  match s with
  | EmptyString => true
  | String c s' => p (chr c) && all_chars p s'
  end.

(** The character codes of a string. *)
Definition codes (s : string) : list Z := map chr (list_ascii_of_string s).

(** Follows the claim's words: an optionally U+-prefixed hex codepoint is
    one or more hex digits, after an optional U+, whose value is at most
    0x10FFFF. *)
Definition spec_hex_codepoint (str : string) (v : Z) : Prop :=
  exists digits,
    (str = digits \/ str = ("U+" ++ digits)%string) /\
    digits <> EmptyString /\ all_chars isxdigit digits = true /\
    v = hexvalue (codes digits) /\ v <= lastucharval.

(** The texts [readuchar] reads as a codepoint, written out: after an
    optional U+ come white space, an optional sign, an optional 0x or 0X,
    and one or more hex digits up to the end of the string.  The digits
    give a number that fits an [unsigned long]; a minus sign negates it
    modulo 2^64; the result is at most 0x10FFFF. *)
Definition hex_text (str : string) (v : Z) : Prop :=
  exists upre spaces sgn pfx digits,
    str = (upre ++ spaces ++ sgn ++ pfx ++ digits)%string /\
    (upre = EmptyString \/ upre = "U+"%string) /\
    all_chars isspace spaces = true /\
    (sgn = EmptyString \/ sgn = "+"%string \/ sgn = "-"%string) /\
    (pfx = EmptyString \/ pfx = "0x"%string \/ pfx = "0X"%string) /\
    digits <> EmptyString /\ all_chars isxdigit digits = true /\
    hexvalue (codes digits) <= ULONG_MAX /\
    v = (if String.eqb sgn "-"
         then (2 ^ 64 - hexvalue (codes digits)) mod 2 ^ 64
         else hexvalue (codes digits)) /\
    v <= lastucharval.

(** Every resize leaves the terminal at least [width] cells wide. *)
Definition resizes_keep (width : Z) (evs : list event) : Prop :=
  Forall (fun e => match e with
                   | Resize _ cols => width <= cols
                   | Key _ => True
                   end) evs.

(** The codepoints fit the 21 bits of the field [uchar] of [charinfo]. *)
Definition codepoints_21bit (D : dataset) : Prop :=
  Forall (fun c => 0 <= uchar c < 2 ^ 21) (charlist D).

(** * Properties *)

(** ** Sorted lists *)

Lemma strongly_sorted_nth (l : list Z) :
  StronglySorted Z.lt l ->
  forall (i j : nat) (d : Z), (i < j < List.length l)%nat ->
                              nth i l d < nth j l d.
Proof.
  induction 1 as [|a l Hs IH Hall]; intros i j d Hij; simpl in *.
  - lia.
  - destruct j as [|j]; [lia|].
    destruct i as [|i].
    + rewrite Forall_forall in Hall. apply Hall, nth_In. lia.
    + apply IH. lia.
Qed.

Section LookupFacts.
Variable D : dataset.
Hypothesis Hsorted : sorted D.

Local Abbreviation val k := (uchar (char_at D k)).
Local Abbreviation size := (charlistsize D).

Lemma val_lt (i j : Z) : 0 <= i -> i < j -> j < size -> val i < val j.
Proof.
  intros Hi Hij Hj. unfold char_at.
  rewrite <- !(map_nth uchar).
  apply strongly_sorted_nth; [exact Hsorted|].
  rewrite length_map. unfold charlistsize in Hj. lia.
Qed.

Lemma val_le (i j : Z) : 0 <= i -> i <= j -> j < size -> val i <= val j.
Proof.
  intros Hi Hij Hj. destruct (Z.eq_dec i j) as [->|Hne]; [lia|].
  pose proof (val_lt i j). lia.
Qed.

Lemma val_inj (i j : Z) :
  valid_index D i -> valid_index D j -> val i = val j -> i = j.
Proof.
  unfold valid_index. intros Hi Hj Heq.
  destruct (Z.lt_trichotomy i j) as [Hlt|[->|Hgt]]; [|reflexivity|].
  - pose proof (val_lt i j). lia.
  - pose proof (val_lt j i). lia.
Qed.

Lemma lookup_exit (x top bottom : Z) :
  lookup_inv D x top bottom -> bottom - top <= 1 ->
  lookup_post D x (if x - val top <? val bottom - x then top else bottom).
Proof.
  intros (Ht & Htb & Hb & Hlo & Hhi) Hgap.
  assert (Hbelow : forall k, 0 <= k -> k < top -> val k < val top /\ val top < x).
  { intros k Hk Hkt. split; [apply val_lt; lia|]. destruct Hlo; lia. }
  assert (Habove : forall k, bottom < k -> k < size ->
                             val bottom < val k /\ x < val bottom).
  { intros k Hk Hks. split; [apply val_lt; lia|]. destruct Hhi; lia. }
  unfold lookup_post, valid_index, dist.
  destruct (Z.eq_dec top bottom) as [Heq|Hne];
    [assert (Htbv : val top = val bottom) by (rewrite Heq; reflexivity)
    |assert (Htbv : val top < val bottom) by (apply val_lt; lia)];
    (destruct (Z.ltb_spec (x - val top) (val bottom - x)) as [Hc|Hc];
     (split; [lia|]); intros k [Hk0 Hk1];
     (destruct (Z.lt_trichotomy k top) as [Hk|[Hk|Hk]];
      [destruct (Hbelow k Hk0 Hk); lia | subst k; lia |]);
     (destruct (Z.eq_dec k bottom) as [Hkb|Hkb];
      [subst k; lia | destruct (Habove k ltac:(lia) Hk1); lia])).
Qed.

Lemma lookup_hit (x n : Z) :
  valid_index D n -> val n = x -> lookup_post D x n.
Proof.
  intros Hn Hx. split; [exact Hn|]. intros k Hk. unfold dist.
  split; [lia|]. intros Heq.
  assert (val k = val n) by lia.
  assert (k = n) by (apply val_inj; assumption). lia.
Qed.

Lemma lookupchar_from_post (x top bottom : Z) :
  lookup_inv D x top bottom -> lookup_post D x (lookupchar_from D x top bottom).
Proof.
  funelim (lookupchar_from D x top bottom); intros Hinv.
  - pose proof (Z.quot_rem' (top + bottom) 2) as Hq.
    pose proof (Z.rem_bound_abs (top + bottom) 2 ltac:(lia)) as Hr.
    destruct Hinv as (Ht & Htb & Hb & Hlo & Hhi).
    set (n := Z.quot (top + bottom) 2) in *.
    assert (Hn : top < n < bottom) by lia.
    destruct (Z.ltb_spec (val n) uc) as [Hlt|Hge].
    + apply H. unfold lookup_inv. lia.
    + destruct (Z.gtb_spec (val n) uc) as [Hgt|Hle].
      * apply H0. unfold lookup_inv. lia.
      * apply lookup_hit; [unfold valid_index; lia | lia].
  - apply lookup_exit; [exact Hinv | lia].
Qed.

Lemma lookupchar_post (x : Z) :
  0 < size -> lookup_post D x (lookupchar D x).
Proof.
  intros Hsize. unfold lookupchar. apply lookupchar_from_post.
  unfold lookup_inv. lia.
Qed.

Lemma lookupchar_valid (x : Z) : 0 < size -> valid_index D (lookupchar D x).
Proof. intros H. apply (lookupchar_post x H). Qed.


(** An assigned codepoint is found at its own index. *)
Lemma lookupchar_exact (k : Z) :
  valid_index D k -> lookupchar D (val k) = k.
Proof.
  intros Hk. assert (Hsize : 0 < size) by (unfold valid_index in Hk; lia).
  destruct (lookupchar_post (val k) Hsize) as [Hv Hall].
  destruct (Hall k Hk) as [Hd _]. unfold dist in Hd.
  apply val_inj; try assumption. lia.
Qed.

End LookupFacts.

Ltac solve_sorted := unfold sorted; simpl; repeat constructor.
Ltac solve_valid := unfold valid_index, charlistsize; simpl; lia.

Lemma sample_sorted : sorted sample.
Proof. solve_sorted. Qed.

(** ** lookupchar: nearest match *)

(** C1, as amended.  For every codepoint value in [0, 0x10FFFF] and every
    non-empty, strictly increasing [charlist], [lookupchar] returns a valid
    index, no entry is closer to the value than the returned one, and an
    entry at the same distance never has a higher index: of two straddling
    entries at equal distance the upper one is returned. *)
Theorem lookupchar_total_nearest_upper (D : dataset) (x : Z) :
  sorted D -> charlist D <> [] -> 0 <= x <= lastucharval ->
  valid_index D (lookupchar D x) /\
  (forall k, valid_index D k -> dist D x (lookupchar D x) <= dist D x k) /\
  (forall k, valid_index D k ->
             dist D x k = dist D x (lookupchar D x) -> k <= lookupchar D x).
Proof.
  intros Hs Hne _.
  assert (Hsize : 0 < charlistsize D).
  { unfold charlistsize. destruct (charlist D); [congruence|simpl; lia]. }
  destruct (lookupchar_post D Hs x Hsize) as [Hv Hall].
  split; [exact Hv|]. split; intros k Hk; apply (Hall k Hk).
Qed.

Lemma lookupchar_total_nearest_upper_witness :
  valid_index sample (lookupchar sample 0x0D84) /\
  (forall k, valid_index sample k ->
             dist sample 0x0D84 (lookupchar sample 0x0D84)
             <= dist sample 0x0D84 k) /\
  (forall k, valid_index sample k ->
             dist sample 0x0D84 k = dist sample 0x0D84 (lookupchar sample 0x0D84) ->
             k <= lookupchar sample 0x0D84).
Proof.
  apply (lookupchar_total_nearest_upper sample 0x0D84).
  - solve_sorted.
  - discriminate.
  - unfold lastucharval. lia.
Defined.

(** C1 as stated fails: U+0D84 lies between the
    entries 3 (U+0D83) and 4 (U+0D85), both at distance 1, and the index
    returned is 4, not the lower one. *)
Lemma lookupchar_tie_not_lower :
  sorted sample /\ 0 <= 0x0D84 <= lastucharval /\
  valid_index sample 3 /\
  dist sample 0x0D84 3 = dist sample 0x0D84 (lookupchar sample 0x0D84) /\
  ~ (lookupchar sample 0x0D84 <= 3).
Proof.
  split; [solve_sorted|].
  split; [unfold lastucharval; lia|].
  split; [solve_valid|].
  split; [reflexivity|].
  vm_compute. intros H. apply H. reflexivity.
Qed.

(** ** offsetchar: there and back *)




(** ** mainui: the column count *)

(** C3, as amended.  On a terminal at least 10 cells wide, whatever the
    column count was, the count the table is drawn with lies between 1 and
    floor((W-1)/(mincolumnwidth+1)). *)
Theorem mainui_clamp_columncount (D : dataset) (index : Z) (g : globals) :
  10 <= xtermsize g ->
  1 <= columncount (snd (fst (mainui_clamp D index g)))
    <= (xtermsize g - 1) / (mincolumnwidth + 1).
Proof.
  intros HW. unfold mainui_clamp. cbn [fst snd].
  rewrite Z.quot_div_nonneg by (unfold mincolumnwidth; lia).
  unfold mincolumnwidth. change (8 + 1) with 9.
  assert (Hq : 1 <= (xtermsize g - 1) / 9).
  { apply Z.div_le_lower_bound; lia. }
  destruct (Z.ltb_spec (columncount g) 1) as [H1|H1]; [simpl; lia|].
  destruct (Z.gtb_spec (columncount g) ((xtermsize g - 1) / 9)) as [H2|H2];
    simpl; lia.
Qed.

Lemma mainui_clamp_columncount_witness :
  1 <= columncount (snd (fst (mainui_clamp sample 0
                          (set_termsize initial_globals 24 80))))
    <= (80 - 1) / (mincolumnwidth + 1).
Proof.
  apply (mainui_clamp_columncount sample 0 (set_termsize initial_globals 24 80)).
  simpl. lia.
Defined.

(** C3 as stated fails: on a terminal 5 cells wide
    the default count of 2 is clamped to 0. *)
Lemma mainui_clamp_columncount_narrow :
  xtermsize (set_termsize initial_globals 24 5) = 5 /\
  columncount (snd (fst (mainui_clamp sample 0
                 (set_termsize initial_globals 24 5)))) = 0 /\
  ~ (1 <= columncount (snd (fst (mainui_clamp sample 0
                         (set_termsize initial_globals 24 5))))
       <= (5 - 1) / (mincolumnwidth + 1)).
Proof.
  split; [reflexivity|]. split; [reflexivity|].
  vm_compute. intros [H _]. apply H. reflexivity.
Qed.

(** ** emptyblocksinit *)

Section EmptyBlocks.
Variable D : dataset.
Hypothesis Hsorted : sorted D.
Hypothesis Hsize : 0 < charlistsize D.

Local Abbreviation val k := (uchar (char_at D k)).

(** The flag of the loop says that the block holds no entry. *)
Lemma emptyblock_flag_true (b : blockinfo) :
  emptyblock_flag D b = true -> block_empty D b.
Proof.
  unfold emptyblock_flag, block_empty.
  destruct (lookupchar_post D Hsorted (from b) Hsize) as [Hn Hall].
  set (n := lookupchar D (from b)) in *.
  unfold valid_index in Hn.
  destruct (Z.geb_spec (val n) (from b)) as [Hge|Hlt];
    destruct (Z.leb_spec (val n) (to b)) as [Hle|Hgt]; simpl;
    try discriminate.
  - (* the nearest entry lies beyond the block *)
    intros _ k Hk Hin. destruct (Hall k Hk) as [Hd _].
    unfold dist in Hd. lia.
  - (* the nearest entry lies before the block *)
    intros Hflag k Hk Hin.
    assert (Hnk : n < k).
    { destruct (Z.lt_ge_cases n k) as [|Hkn]; [assumption|].
      unfold valid_index in Hk.
      pose proof (val_le D Hsorted k n). lia. }
    unfold valid_index in Hk.
    assert (Hn1 : val (n + 1) <= val k) by (apply (val_le D Hsorted); lia).
    assert (Hn1v : valid_index D (n + 1)) by (unfold valid_index; lia).
    destruct (Hall (n + 1) Hn1v) as [Hd _]. unfold dist in Hd.
    pose proof (val_lt D Hsorted n (n + 1)) as Hstep.
    destruct (Z.ltb_spec (n + 1) (charlistsize D)); [|lia].
    destruct (Z.geb_spec (val (n + 1)) (from b));
      destruct (Z.leb_spec (val (n + 1)) (to b));
      simpl in Hflag; try discriminate; lia.
  - (* before the block and past its end: the block is [from > to] *)
    intros Hflag k Hk Hin.
    assert (Hnk : n < k).
    { destruct (Z.lt_ge_cases n k) as [|Hkn]; [assumption|].
      unfold valid_index in Hk.
      pose proof (val_le D Hsorted k n). lia. }
    lia.
Qed.

Lemma emptyblock_flag_false (b : blockinfo) :
  emptyblock_flag D b = false -> ~ block_empty D b.
Proof.
  unfold emptyblock_flag, block_empty.
  pose proof (lookupchar_valid D Hsorted (from b) Hsize) as Hn.
  set (n := lookupchar D (from b)) in *.
  unfold valid_index in Hn.
  destruct (Z.geb_spec (val n) (from b)) as [Hge|Hlt];
    destruct (Z.leb_spec (val n) (to b)) as [Hle|Hgt]; simpl.
  1: { intros _ Hempty. apply (Hempty n); [unfold valid_index|]; lia. }
  all: destruct (Z.ltb_spec (n + 1) (charlistsize D)); simpl;
       try discriminate;
       destruct (Z.geb_spec (val (n + 1)) (from b));
       destruct (Z.leb_spec (val (n + 1)) (to b)); simpl;
       try discriminate;
       intros _ Hempty; apply (Hempty (n + 1)); [unfold valid_index|]; lia.
Qed.

Lemma emptyblock_flag_spec (b : blockinfo) :
  emptyblock_flag D b = true <-> block_empty D b.
Proof.
  split; [apply emptyblock_flag_true|].
  intros Hempty. destruct (emptyblock_flag D b) eqn:Hf; [reflexivity|].
  exfalso. exact (emptyblock_flag_false b Hf Hempty).
Qed.

Lemma emptyblock_at_init (g : globals) (i : Z) :
  emptyblocks g = None -> 0 <= i < blocklistsize D ->
  emptyblock_at (emptyblocksinit D g) i = emptyblock_flag D (block_at D i).
Proof.
  intros Hnone Hi. unfold emptyblock_at, emptyblocksinit. rewrite Hnone.
  simpl. unfold block_at.
  rewrite (nth_indep _ false (emptyblock_flag D noblock)).
  - apply map_nth.
  - rewrite length_map. unfold blocklistsize in Hi. lia.
Qed.

End EmptyBlocks.

(** C4.  With a non-empty, strictly increasing [charlist], the flag that
    [emptyblocksinit] stores for a block (from the entry nearest to the
    block's start, or the entry after it) is true exactly when no entry
    has its codepoint within [from, to]. *)
Theorem emptyblocksinit_flag_iff_empty (D : dataset) (g : globals) (i : Z) :
  sorted D -> charlist D <> [] ->
  emptyblocks g = None -> 0 <= i < blocklistsize D ->
  (emptyblock_at (emptyblocksinit D g) i = true
   <-> block_empty D (block_at D i)).
Proof.
  intros Hs Hne Hnone Hi.
  assert (Hsize : 0 < charlistsize D).
  { unfold charlistsize. destruct (charlist D); [congruence|simpl; lia]. }
  rewrite (emptyblock_at_init D g i Hnone Hi).
  apply emptyblock_flag_spec; assumption.
Qed.

Lemma emptyblocksinit_flag_iff_empty_witness :
  emptyblock_at (emptyblocksinit sample initial_globals) 2 = true
  <-> block_empty sample (block_at sample 2).
Proof.
  apply (emptyblocksinit_flag_iff_empty sample initial_globals 2).
  - solve_sorted.
  - discriminate.
  - reflexivity.
  - unfold blocklistsize. simpl. lia.
Defined.

(** ** findcharbyname: one round at most *)

Section Circular.
Variable D : dataset.
Variables startpos direction : Z.
Hypothesis Hstart : valid_index D startpos.
Hypothesis Hdir : direction = 1 \/ direction = -1.

Local Abbreviation size := (charlistsize D).
Local Abbreviation circ k := (circular D startpos direction k).

Lemma circular_range (k : Z) : 0 <= circ k < size.
Proof.
  unfold circular. apply Z.mod_pos_bound. unfold valid_index in Hstart. lia.
Qed.

(** The wrap-around of the loop moves one step along the circle. *)
Lemma circular_step (k : Z) :
  (if circ k + direction >=? size then 0
   else if circ k + direction <? 0 then size - 1
   else circ k + direction)
  = circ (k + 1).
Proof.
  pose proof (circular_range k) as Hr.
  assert (Hnext : circ (k + 1) = (circ k + direction) mod size).
  { unfold circular. rewrite Zplus_mod_idemp_l. f_equal. lia. }
  rewrite Hnext. set (p := circ k) in *. set (n := size) in *.
  destruct (Z.geb_spec (p + direction) n) as [Hge|Hlt].
  - replace (p + direction) with n by lia. symmetry. apply Z_mod_same_full.
  - destruct (Z.ltb_spec (p + direction) 0) as [Hneg|Hpos].
    + replace (p + direction) with ((n - 1) + (-1) * n) by lia.
      rewrite Z_mod_plus_full. symmetry. apply Z.mod_small. lia.
    + symmetry. apply Z.mod_small. lia.
Qed.

Lemma circular_zero : circ 0 = startpos.
Proof.
  unfold circular. rewrite Z.mul_0_r, Z.add_0_r. apply Z.mod_small.
  exact Hstart.
Qed.

Lemma circular_full : circ size = startpos.
Proof.
  unfold circular. rewrite Z_mod_plus_full. apply Z.mod_small. exact Hstart.
Qed.

Lemma circular_not_start (k : Z) : 1 <= k < size -> circ k <> startpos.
Proof.
  intros Hk Heq. unfold circular in Heq. unfold valid_index in Hstart.
  set (n := size) in *.
  pose proof (Z.div_mod (startpos + direction * k) n ltac:(lia)) as Hdm.
  rewrite Heq in Hdm.
  set (q := (startpos + direction * k) / n) in *.
  clearbody q n. clear Heq.
  destruct Hdir as [Hd | Hd]; rewrite Hd in Hdm;
    (assert (Hq : q <= -1 \/ q = 0 \/ 1 <= q) by lia);
    destruct Hq as [Hq|[Hq|Hq]]; nia.
Qed.

(** With [m] positions of the round still to visit and at least as much
    fuel, the loop answers. *)
Lemma findchar_loop_answer (s last : string) (m : nat) :
  forall (j : Z) (fuel : nat),
    0 <= j -> j + Z.of_nat m = size -> (1 <= m <= fuel)%nat ->
    (forall k, 1 <= k <= j -> name_matches D s (circ k) = false) ->
    exists pos last',
      findchar_loop D fuel s startpos direction (circ j) last
      = Some (pos, last')
      /\ search_answer D startpos direction s last pos last'.
Proof.
  induction m as [|m IH]; intros j fuel Hj Hjm Hfuel Hnone; [lia|].
  destruct fuel as [|fuel]; [lia|].
  cbn [findchar_loop]. cbv zeta. rewrite circular_step.
  destruct (name_matches D s (circ (j + 1))) eqn:Hm.
  - eexists _, _. split; [reflexivity|]. right. exists (j + 1).
    repeat split; try lia; try assumption.
    intros k' Hk'. apply Hnone. lia.
  - assert (Hnone' : forall k, 1 <= k <= j + 1 ->
                                 name_matches D s (circ k) = false).
    { intros k Hk. destruct (Z.eq_dec k (j + 1)) as [->|Hne];
        [assumption | apply Hnone; lia]. }
    destruct (Z.eqb_spec (circ (j + 1)) startpos) as [Heq|Hne].
    + destruct m as [|m'].
      * eexists _, _. split; [reflexivity|]. left.
        repeat split. intros k Hk. apply Hnone'. lia.
      * exfalso. apply (circular_not_start (j + 1)); [lia|assumption].
    + destruct m as [|m'].
      * exfalso. apply Hne. replace (j + 1) with size by lia.
        apply circular_full.
      * apply IH; try lia. assumption.
Qed.

Lemma findchar_loop_round (s last : string) (fuel : nat) :
  (Z.to_nat size <= fuel)%nat ->
  exists pos last',
    findchar_loop D fuel s startpos direction startpos last = Some (pos, last')
    /\ search_answer D startpos direction s last pos last'.
Proof.
  intros Hfuel. unfold valid_index in Hstart.
  pose proof (findchar_loop_answer s last (Z.to_nat size) 0 fuel) as Hrun.
  rewrite circular_zero in Hrun. apply Hrun; lia.
Qed.

End Circular.

(** An entry that matches has the searched string in its name. *)
Lemma name_matches_strstr (D : dataset) (s : string) (pos : Z) :
  name_matches D s pos = true -> strstr (cstr (name_at D pos)) s = true.
Proof. unfold name_matches. intros H. apply andb_prop in H. apply H. Qed.

(** X26.  From a valid start index and in either direction,
    [findcharbyname] comes back within [charlistsize] iterations of its
    loop.  It answers -1 and leaves the saved string alone, or it answers
    the first entry that matches among those at 1, 2, ... steps from the
    start, going around the list and ending with the start itself; when
    no name contains the searched string the answer is -1. *)
Theorem findcharbyname_terminates (D : dataset) (substring : option string)
    (startpos direction : Z) (last : string) (fuel : nat) :
  valid_index D startpos -> direction = 1 \/ direction = -1 ->
  (Z.to_nat (charlistsize D) <= fuel)%nat ->
  exists pos last',
    findcharbyname D fuel substring startpos direction last = Some (pos, last')
    /\ ((pos = -1 /\ last' = last) \/
        (exists k, 1 <= k <= charlistsize D /\
                   pos = circular D startpos direction k /\
                   name_matches D (searched substring last) pos = true /\
                   forall k', 1 <= k' < k ->
                     name_matches D (searched substring last)
                       (circular D startpos direction k') = false))
    /\ ((forall i, valid_index D i ->
           strstr (cstr (name_at D i)) (searched substring last) = false) ->
        pos = -1).
Proof.
  intros Hstart Hdir Hfuel.
  assert (Hearly : exists pos last',
             Some (-1, last) = Some (pos, last') /\
             ((pos = -1 /\ last' = last) \/
              (exists k, 1 <= k <= charlistsize D /\
                   pos = circular D startpos direction k /\
                   name_matches D (searched substring last) pos = true /\
                   forall k', 1 <= k' < k ->
                     name_matches D (searched substring last)
                       (circular D startpos direction k') = false)) /\
             ((forall i, valid_index D i ->
                 strstr (cstr (name_at D i)) (searched substring last) = false) ->
              pos = -1)).
  { exists (-1), last. split; [reflexivity|]. split; [left; split|]; reflexivity. }
  assert (Hloop : forall s, searched substring last = s ->
            exists pos last',
              findchar_loop D fuel s startpos direction startpos last
              = Some (pos, last') /\
              ((pos = -1 /\ last' = last) \/
               (exists k, 1 <= k <= charlistsize D /\
                   pos = circular D startpos direction k /\
                   name_matches D s pos = true /\
                   forall k', 1 <= k' < k ->
                     name_matches D s (circular D startpos direction k') = false)) /\
              ((forall i, valid_index D i ->
                  strstr (cstr (name_at D i)) s = false) ->
               pos = -1)).
  { intros s _.
    destruct (findchar_loop_round D startpos direction Hstart Hdir s last fuel Hfuel)
      as (pos & last' & Hrun & Hans).
    exists pos, last'. split; [exact Hrun|].
    destruct Hans as [(Hp & Hl & Hnone)|(k & Hk & Hp & Hl & Hm & Hfirst)].
    - split; [left; split; assumption|]. intros _. exact Hp.
    - split.
      + right. exists k. repeat split; try lia; assumption.
      + intros Habsent. exfalso.
        pose proof (circular_range D startpos direction Hstart k) as Hr.
        apply name_matches_strstr in Hm.
        specialize (Habsent pos). rewrite Hm in Habsent.
        assert (true = false) by (apply Habsent; subst pos; exact Hr).
        discriminate. }
  unfold findcharbyname. destruct substring as [s|].
  - destruct (Z.of_nat (String.length s) >=? 256 - 1); [exact Hearly|].
    apply (Hloop s). reflexivity.
  - destruct (negb (Ascii.eqb (first_char last) NUL)); [|exact Hearly].
    apply (Hloop last). reflexivity.
Qed.

Lemma findcharbyname_terminates_witness :
  exists pos last',
    findcharbyname sample 6 (Some "zz"%string) 3 (-1) "sign"%string
    = Some (pos, last')
    /\ ((pos = -1 /\ last' = "sign"%string) \/
        (exists k, 1 <= k <= charlistsize sample /\
                   pos = circular sample 3 (-1) k /\
                   name_matches sample (searched (Some "zz"%string) "sign") pos = true /\
                   forall k', 1 <= k' < k ->
                     name_matches sample (searched (Some "zz"%string) "sign")
                       (circular sample 3 (-1) k') = false))
    /\ ((forall i, valid_index sample i ->
           strstr (cstr (name_at sample i)) (searched (Some "zz"%string) "sign") = false) ->
        pos = -1).
Proof.
  apply (findcharbyname_terminates sample (Some "zz"%string) 3 (-1) "sign"%string 6).
  - solve_valid.
  - right. reflexivity.
  - vm_compute. lia.
Defined.

(** Outside the list the loop walks the whole list again and again. *)
Lemma findchar_loop_outside (fuel : nat) :
  forall pos0, 0 <= pos0 <= 6 ->
    findchar_loop sample fuel "zz" 6 1 pos0 "" = None.
Proof.
  assert (Hnm : forall p, 0 <= p <= 5 -> name_matches sample "zz" p = false).
  { intros p Hp.
    assert (Hcases : p = 0 \/ p = 1 \/ p = 2 \/ p = 3 \/ p = 4 \/ p = 5) by lia.
    destruct Hcases as [->|[->|[->|[->|[->| ->]]]]]; vm_compute; reflexivity. }
  induction fuel as [|fuel IH]; intros pos0 Hpos; [reflexivity|].
  cbn [findchar_loop]. cbv zeta. change (charlistsize sample) with 6.
  set (p := if pos0 + 1 >=? 6 then 0
            else if pos0 + 1 <? 0 then 6 - 1 else pos0 + 1).
  assert (Hp : 0 <= p <= 5).
  { subst p. destruct (Z.geb_spec (pos0 + 1) 6); [lia|].
    destruct (Z.ltb_spec (pos0 + 1) 0); lia. }
  rewrite (Hnm p Hp).
  destruct (Z.eqb_spec p 6); [lia|]. apply IH. lia.
Qed.

(** C7, at the input that breaks it.  Started at index 6, the size of the
    sample list, the search for a string that no name contains never
    reports NotFound: it is still running after any number of iterations,
    because [pos] is brought back into the list and never equals
    [startpos] again.  [mainui] passes this start: on a terminal of one
    row [tablesize] is 0, the clamp lets the index reach [charlistsize],
    and a search typed there does not come back. *)
Theorem findcharbyname_outside_never_returns :
  charlistsize sample = 6 /\
  (forall i, valid_index sample i ->
             strstr (cstr (name_at sample i)) "zz" = false) /\
  (forall fuel, findcharbyname sample fuel (Some "zz"%string) 6 1 "" = None) /\
  fst (fst (mainui_clamp sample 6 (set_termsize initial_globals 1 80))) = 6 /\
  mainui sample 5 (set_termsize initial_globals 1 80) vt80x24
         [Key (chr "+"); Key (chr "/"); Key (chr "z"); Key (chr "z"); Key 13]
  = MainHang.
Proof.
  split; [reflexivity|]. split; [|split; [|split; reflexivity]].
  - intros i Hi. unfold valid_index, charlistsize in Hi. simpl in Hi.
    assert (Hcases : i = 0 \/ i = 1 \/ i = 2 \/ i = 3 \/ i = 4 \/ i = 5) by lia.
    destruct Hcases as [->|[->|[->|[->|[->| ->]]]]]; vm_compute; reflexivity.
  - intros fuel. unfold findcharbyname.
    change (Z.of_nat (String.length "zz") >=? 256 - 1) with false. cbv iota.
    apply findchar_loop_outside. lia.
Qed.

(** C9.  A search string of 255 bytes or more is turned down before the
    loop is entered, whatever the names hold: the answer is -1 for every
    start index and direction, and the saved search string stays as it
    was. *)
Theorem findcharbyname_long_substring (D : dataset) (s : string)
    (startpos direction : Z) (last : string) (fuel : nat) :
  (255 <= String.length s)%nat ->
  findcharbyname D fuel (Some s) startpos direction last = Some (-1, last).
Proof.
  intros Hlen. unfold findcharbyname.
  destruct (Z.geb_spec (Z.of_nat (String.length s)) (256 - 1)) as [_|Hlt];
    [reflexivity | lia].
Qed.

Lemma findcharbyname_long_substring_witness :
  name_matches longname long_name 0 = true /\
  findcharbyname longname 1 (Some long_name) 0 1 "sign"%string
  = Some (-1, "sign"%string).
Proof.
  split; [vm_compute; reflexivity|].
  apply (findcharbyname_long_substring longname long_name 0 1 "sign"%string 1).
  vm_compute. apply le_n.
Defined.

(** ** readuchar and readsinglecharstring *)





(** ** readcmdline: the positional argument *)

Section Positional.
Variable D : dataset.
Variable scan_lc : string -> option (Z * string).
Hypothesis Hsorted : sorted D.
Hypothesis Hsize : 0 < charlistsize D.







End Positional.

(** ** The text read by strtoul *)















(** The texts of the claim are among those [readuchar] reads. *)
Lemma spec_hex_codepoint_hex_text (str : string) (v : Z) :
  spec_hex_codepoint str v -> hex_text str v.
Proof.
  intros (digits & Hstr & Hne & Hdig & Hv & Hle).
  assert (Hfit : hexvalue (codes digits) <= ULONG_MAX)
    by (unfold ULONG_MAX, lastucharval in *; lia).
  destruct Hstr as [-> | ->].
  - exists EmptyString, EmptyString, EmptyString, EmptyString, digits.
    repeat split; auto.
  - exists "U+"%string, EmptyString, EmptyString, EmptyString, digits.
    repeat split; auto.
Qed.




(** The three readings and the failure, on the sample data. *)
Example positional_literal :
  readcmdline sample scan_lc_C [] ["A"%string] initial_globals
  = CmdReturn 0 initial_globals.
Proof. reflexivity. Qed.

Example positional_hex :
  readcmdline sample scan_lc_C [] ["U+0D83"%string] initial_globals
  = CmdReturn 3 initial_globals.
Proof. reflexivity. Qed.

Example positional_name :
  readcmdline sample scan_lc_C [] ["visarg"%string] initial_globals
  = CmdReturn 3 (set_lastsubstring initial_globals "visarg").
Proof. reflexivity. Qed.

Example positional_invalid :
  main_startup sample scan_lc_C [] ["zzz"%string] vt80x24
  = ExitNoUI EXIT_FAILURE (Some (invalid_start "zzz")).
Proof. reflexivity. Qed.

(** ** readcmdline: the accent option *)



(** ** jumpui: confirming an empty line *)

(** C2, at the input that breaks it.  When the user confirms the hex
    prompt without having typed a digit, [jumpui] does not beep and does
    not return the index it was given: [strtoul] reads the empty buffer as
    0 and the result is [lookupchar(0)].  On the sample data the position
    moves from index 3 to index 0. *)
Theorem jumpui_empty_input_jumps :
  (forall (D : dataset) (index : Z) (g : globals) (rest : list event),
     jumpui D index g vt80x24 (Key 13 :: rest)
     = (lookupchar D 0, g, vt80x24, rest)) /\
  jumpui sample 3 (measurescreen initial_globals vt80x24) vt80x24 [Key 13]
  = (0, measurescreen initial_globals vt80x24, vt80x24, []) /\
  beeps vt80x24 = 0%nat.
Proof.
  split; [|split; reflexivity].
  intros D index g rest. unfold jumpui, doinputui. cbv zeta.
  cbn [doinputui_loop deliver]. reflexivity.
Qed.

(** A value above 0x10FFFF is turned down with a beep, and a cancelled
    prompt returns the index unchanged. *)
Example jumpui_too_large :
  jumpui sample 3 (measurescreen initial_globals vt80x24) vt80x24
         [Key (chr "1"); Key (chr "1"); Key (chr "0"); Key (chr "0");
          Key (chr "0"); Key (chr "0"); Key 13]
  = (3, measurescreen initial_globals vt80x24, beep vt80x24, []).
Proof. reflexivity. Qed.

Example jumpui_cancel :
  jumpui sample 3 (measurescreen initial_globals vt80x24) vt80x24
         [Key (chr "d"); Key 7]
  = (3, measurescreen initial_globals vt80x24, vt80x24, []).
Proof. reflexivity. Qed.

Example jumpui_valid :
  jumpui sample 0 (measurescreen initial_globals vt80x24) vt80x24
         [Key (chr "d"); Key (chr "8"); Key (chr "3"); Key 13]
  = (3, measurescreen initial_globals vt80x24, vt80x24, []).
Proof. reflexivity. Qed.

(** ** blockselectui: confirming a block *)

(** C5, at the input that breaks it.  On the sample data the Sinhala block
    (U+0D80..U+0DFF) is not empty: its lowest entry is index 2, U+0D82.
    Selecting it from the block list and confirming returns index 1,
    U+0D7F, the entry nearest to the start of the block, which lies in the
    block before. *)
Theorem blockselectui_confirm_lands_before_block :
  let g := set_termsize initial_globals 24 80 in
  blockselectui sample 0 g vt80x24 [Key KEY_DOWN; Key 13]
  = UIReturn 1 (emptyblocksinit sample g) vt80x24 [] /\
  emptyblock_at (emptyblocksinit sample g) 1 = false /\
  block_at sample 1 = mkblock 0x0D80 0x0DFF "Sinhala" /\
  uchar (char_at sample 1) = 0x0D7F /\
  uchar (char_at sample 2) = 0x0D82.
Proof. cbv zeta. repeat split. Qed.

(** Confirming an empty block beeps and stays in the list; cancelling
    returns the index the list was entered with. *)
Example blockselectui_confirm_empty :
  let g := set_termsize initial_globals 24 80 in
  blockselectui sample 0 g vt80x24 [Key (chr "}"); Key 13]
  = UINoInput (emptyblocksinit sample g) (beep vt80x24).
Proof. reflexivity. Qed.

Example blockselectui_cancel :
  let g := set_termsize initial_globals 24 80 in
  blockselectui sample 4 g vt80x24 [Key KEY_UP; Key (chr "q")]
  = UIReturn 4 (emptyblocksinit sample g) vt80x24 [].
Proof. reflexivity. Qed.

(** * Further properties *)

(** * Further properties of the codepoint index *)

Lemma lookupchar_from_range (D : dataset) (x top bottom : Z) :
  top <= bottom -> top <= lookupchar_from D x top bottom <= bottom.
Proof.
  funelim (lookupchar_from D x top bottom); intros Hle.
  - pose proof (Z.quot_rem' (top + bottom) 2) as Hq.
    pose proof (Z.rem_bound_abs (top + bottom) 2 ltac:(lia)) as Hr.
    set (n := Z.quot (top + bottom) 2) in *.
    assert (Hn : top < n < bottom) by lia.
    destruct (uchar (char_at D n) <? uc).
    + specialize (H ltac:(lia)). lia.
    + destruct (uchar (char_at D n) >? uc).
      * specialize (H0 ltac:(lia)). lia.
      * lia.
  - destruct (uc - uchar (char_at D top) <? uchar (char_at D bottom) - uc); lia.
Qed.

Lemma nonempty_size (D : dataset) : charlist D <> [] -> 0 < charlistsize D.
Proof.
  intros Hne. unfold charlistsize. destruct (charlist D); [congruence|simpl; lia].
Qed.

Lemma lookupchar_range (D : dataset) (x : Z) :
  0 < charlistsize D -> valid_index D (lookupchar D x).
Proof.
  intros Hsize. unfold lookupchar, valid_index.
  pose proof (lookupchar_from_range D x 0 (charlistsize D - 1) ltac:(lia)). lia.
Qed.

Section Monotone.
Variable D : dataset.
Hypothesis Hsorted : sorted D.
Hypothesis Hsize : 0 < charlistsize D.

Lemma lookupchar_mono (x y : Z) : x <= y -> lookupchar D x <= lookupchar D y.
Proof.
  intros Hxy.
  destruct (lookupchar_post D Hsorted x Hsize) as [Hr Hrall].
  destruct (lookupchar_post D Hsorted y Hsize) as [Hs Hsall].
  set (r := lookupchar D x) in *. set (s := lookupchar D y) in *.
  destruct (Z.le_gt_cases r s) as [|Hlt]; [assumption|exfalso].
  unfold valid_index in Hr, Hs.
  pose proof (val_lt D Hsorted s r ltac:(lia) Hlt ltac:(lia)) as Hv.
  destruct (Hrall s Hs) as [Hd1 Ht1]. destruct (Hsall r Hr) as [Hd2 Ht2].
  unfold dist in *. lia.
Qed.

Lemma offsetchar_forward (i d : Z) :
  valid_index D i -> 0 <= d -> i <= offsetchar D i d.
Proof.
  intros Hi Hd. unfold offsetchar.
  rewrite <- (lookupchar_exact D Hsorted i Hi) at 1.
  apply lookupchar_mono. lia.
Qed.

Lemma offsetchar_backward (i d : Z) :
  valid_index D i -> d <= 0 -> offsetchar D i d <= i.
Proof.
  intros Hi Hd. unfold offsetchar.
  rewrite <- (lookupchar_exact D Hsorted i Hi) at 2.
  apply lookupchar_mono. lia.
Qed.
End Monotone.

(** * Further properties of the name search *)

Section CircularCover.
Variable D : dataset.
Variables startpos direction : Z.
Hypothesis Hstart : valid_index D startpos.
Hypothesis Hdir : direction = 1 \/ direction = -1.

(** Every index is met on the round. *)
Lemma circular_cover (i : Z) :
  valid_index D i ->
  exists k, 1 <= k <= charlistsize D /\ circular D startpos direction k = i.
Proof.
  intros Hi. unfold valid_index in *.
  destruct (Z.eq_dec i startpos) as [->|Hne].
  - exists (charlistsize D). split; [lia|].
    apply circular_full; assumption.
  - exists (((i - startpos) * direction) mod charlistsize D).
    pose proof (Z.mod_pos_bound ((i - startpos) * direction) (charlistsize D)
                  ltac:(lia)) as Hb.
    assert (Hcirc : circular D startpos direction
                      (((i - startpos) * direction) mod charlistsize D) = i).
    { unfold circular.
      rewrite (Z.mod_eq ((i - startpos) * direction)) by lia.
      replace (startpos + direction *
                 ((i - startpos) * direction -
                  charlistsize D * ((i - startpos) * direction / charlistsize D)))
        with (i + (- direction * ((i - startpos) * direction / charlistsize D))
                  * charlistsize D)
        by (destruct Hdir as [-> | ->]; ring).
      rewrite Z_mod_plus_full. apply Z.mod_small. lia. }
    split; [|exact Hcirc].
    destruct (Z.eq_dec (((i - startpos) * direction) mod charlistsize D) 0)
      as [Hz|Hnz]; [|lia].
    exfalso. rewrite Hz in Hcirc.
    rewrite (circular_zero D startpos direction Hstart) in Hcirc. lia.
Qed.
End CircularCover.

(** A match that exists is found. *)
Lemma findchar_loop_finds (D : dataset) (startpos direction : Z)
    (s last : string) (fuel : nat) (i : Z) :
  valid_index D startpos -> direction = 1 \/ direction = -1 ->
  (Z.to_nat (charlistsize D) <= fuel)%nat ->
  valid_index D i -> name_matches D s i = true ->
  exists pos,
    findchar_loop D fuel s startpos direction startpos last = Some (pos, s) /\
    valid_index D pos /\ name_matches D s pos = true.
Proof.
  intros Hstart Hdir Hfuel Hi Hm.
  destruct (findchar_loop_round D startpos direction Hstart Hdir s last fuel Hfuel)
    as (pos & last' & Hrun & Hans).
  destruct Hans as [(_ & _ & Hnone)|(k & Hk & Hp & Hl & Hmk & _)].
  - exfalso.
    destruct (circular_cover D startpos direction Hstart Hdir i Hi)
      as (k & Hk & Hki).
    specialize (Hnone k Hk). rewrite Hki in Hnone. congruence.
  - exists pos. subst last'. split; [exact Hrun|]. split; [|exact Hmk].
    subst pos. apply circular_range. exact Hstart.
Qed.

(** Whatever the start and the fuel, an answer other than -1 is a match. *)
Lemma findchar_loop_sound (D : dataset) (s last : string) (startpos direction : Z)
    (fuel : nat) :
  forall pos0 pos last',
    findchar_loop D fuel s startpos direction pos0 last = Some (pos, last') ->
    (pos = -1 /\ last' = last) \/
    (name_matches D s pos = true /\ last' = s).
Proof.
  induction fuel as [|fuel IH]; intros pos0 pos last' Hrun; [discriminate|].
  cbn [findchar_loop] in Hrun. cbv zeta in Hrun.
  set (p := if pos0 + direction >=? charlistsize D then 0
            else if pos0 + direction <? 0 then charlistsize D - 1
                 else pos0 + direction) in *.
  destruct (name_matches D s p) eqn:Hm.
  - injection Hrun as <- <-. right. split; [exact Hm|reflexivity].
  - destruct (p =? startpos).
    + injection Hrun as <- <-. left. split; reflexivity.
    + apply (IH p). exact Hrun.
Qed.

(** * Text input *)

Lemma chr_ascii_of (ch : Z) : 0 <= ch < 256 -> chr (ascii_of_N (Z.to_N ch)) = ch.
Proof.
  intros H. unfold chr. rewrite N_ascii_embedding by lia. lia.
Qed.

Lemma length_string_of_list (l : list ascii) :
  String.length (string_of_list_ascii l) = List.length l.
Proof. induction l; simpl; congruence. Qed.

Lemma Forall_firstn_of {A : Type} (P : A -> Prop) (n : nat) (l : list A) :
  Forall P l -> Forall P (firstn n l).
Proof.
  intros H. rewrite <- (firstn_skipn n l) in H.
  apply Forall_app in H. apply H.
Qed.

Section InputLoop.
Variable validchar : Z -> bool.
Variables inputsize promptlen : Z.
Hypothesis Hsize : 1 <= inputsize.
Hypothesis Hvalid : forall ch, validchar ch = true -> 0 <= ch < 256.

Lemma doinputui_loop_ok (evs : list event) :
  forall (input : list ascii) (inputlen inputmax : Z) (g : globals) (scr : screen),
    inputlen <= inputsize - 1 -> inputmax <= inputsize - 1 ->
    inputlen <= Z.of_nat (List.length input) ->
    Forall (fun c => validchar (chr c) = true) input ->
    input_ok validchar inputsize evs (doinputui_loop validchar inputsize promptlen evs
                                 input inputlen inputmax g scr).
Proof.
  induction evs as [|e evs IH]; intros input inputlen inputmax g scr
    Hlen Hmax Hbuf Hall.
  - simpl. repeat split; try lia.
  - assert (Hweak : forall r, input_ok validchar inputsize evs r -> input_ok validchar inputsize (e :: evs) r).
    { intros [[[[n s] g'] scr'] rest] (H1 & H2 & H3).
      repeat split; try assumption; try apply H2; try assumption. simpl. lia. }
    cbn [doinputui_loop].
    destruct (deliver e scr) as [ch scr1].
    destruct (Z.eqb_spec ch ERR) as [Herr|Hnerr].
    { simpl. repeat split; try lia. all: unfold ERR in *; lia. }
    destruct (validchar ch) eqn:Hv.
    + destruct (Z.ltb_spec inputlen inputmax) as [Hroom|Hfull].
      * apply Hweak, IH; try lia.
        -- rewrite length_app, length_firstn. simpl. lia.
        -- apply Forall_app. split.
           ++ apply Forall_firstn_of. exact Hall.
           ++ constructor; [|constructor].
              rewrite chr_ascii_of by (apply Hvalid; exact Hv). exact Hv.
      * apply Hweak, IH; assumption.
    + cbv zeta.
      set (ch' := if ch =? kill_char scr1 then 21 else ch).
      destruct ((ch' =? KEY_ENTER) || (ch' =? 13) || (ch' =? 10)).
      { unfold input_ok. split; [lia|]. split; [|simpl; lia].
        intros Hpos. split.
        - rewrite length_string_of_list, length_firstn. lia.
        - intros c Hc. rewrite list_ascii_of_string_of_list_ascii in Hc.
          revert c Hc. apply Forall_forall, Forall_firstn_of. exact Hall. }
      destruct ((ch' =? KEY_BACKSPACE) || (ch' =? 8) || (ch' =? 127)).
      { destruct (negb (inputlen =? 0)); apply Hweak, IH; try assumption; lia. }
      destruct (ch' =? 21).
      { apply Hweak, IH; try assumption; lia. }
      destruct (ch' =? 7).
      { unfold input_ok. repeat split; try lia. simpl. lia. }
      destruct (ch' =? KEY_RESIZE).
      { apply Hweak, IH; try assumption.
        - destruct (inputlen >=? _) eqn:E1;
            destruct (xtermsize (measurescreen g scr1) - promptlen >? inputsize - 1) eqn:E2;
            lia.
        - destruct (xtermsize (measurescreen g scr1) - promptlen >? inputsize - 1) eqn:E2;
            lia.
        - destruct (Z.geb_spec inputlen
                      (if xtermsize (measurescreen g scr1) - promptlen >? inputsize - 1
                       then inputsize - 1
                       else xtermsize (measurescreen g scr1) - promptlen)); lia. }
      apply Hweak, IH; assumption.
Qed.

(** Typing characters the prompt accepts, no more than fit, then Enter. *)
Lemma doinputui_loop_typed (cs : list Z) :
  forall (rest : list event) (input : list ascii) (inputlen inputmax : Z)
         (g : globals) (scr : screen),
    validchar 13 = false -> kill_char scr <> 13 ->
    Forall (fun ch => validchar ch = true) cs ->
    0 <= inputlen -> inputlen = Z.of_nat (List.length input) ->
    inputlen + Z.of_nat (List.length cs) <= inputmax ->
    doinputui_loop validchar inputsize promptlen
                   (map Key cs ++ Key 13 :: rest) input inputlen inputmax g scr
    = (inputlen + Z.of_nat (List.length cs),
       string_of_list_ascii
         (input ++ map (fun ch => ascii_of_N (Z.to_N ch)) cs),
       g, scr, rest).
Proof.
  induction cs as [|c cs IH]; intros rest input inputlen inputmax g scr
    H13 Hkill Hall Hpos Hbuf Hfit.
  - cbn [map app doinputui_loop deliver].
    change (13 =? ERR) with false. rewrite H13. cbv zeta.
    destruct (Z.eqb_spec 13 (kill_char scr)) as [Hk|_]; [congruence|].
    cbn [Z.eqb orb]. change (13 =? KEY_ENTER) with false. cbn [orb].
    rewrite app_nil_r, Z.add_0_r. subst inputlen.
    rewrite Nat2Z.id, firstn_all. reflexivity.
  - inversion Hall as [|? ? Hc Hcs]; subst.
    cbn [map app doinputui_loop deliver].
    destruct (Z.eqb_spec c ERR) as [Herr|_].
    { pose proof (Hvalid c Hc). unfold ERR in Herr. lia. }
    rewrite Hc.
    destruct (Z.ltb_spec (Z.of_nat (List.length input)) inputmax) as [_|Hfull];
      [|simpl in Hfit; lia].
    rewrite Nat2Z.id, firstn_all.
    rewrite (IH rest (input ++ [ascii_of_N (Z.to_N c)])); try assumption; try lia.
    + rewrite <- app_assoc. cbn [app map List.length].
      f_equal. f_equal. f_equal. f_equal. lia.
    + rewrite length_app. simpl. lia.
    + simpl in Hfit. lia.
Qed.

End InputLoop.

Lemma chr_key_ascii (ch : Z) : 0 <= ch < 256 -> chr (key_ascii ch) = ch.
Proof. apply chr_ascii_of. Qed.

Lemma isxdigit_range (c : Z) : isxdigit c = true -> 0 <= c < 256.
Proof. unfold isxdigit. lia. Qed.

Lemma xdigitval_range (c : Z) : isxdigit c = true -> 0 <= xdigitval c <= 15.
Proof. unfold isxdigit, xdigitval. intros H.
  destruct ((48 <=? c) && (c <=? 57)) eqn:E1; [lia|].
  destruct ((97 <=? c) && (c <=? 102)) eqn:E2; lia.
Qed.

Lemma hex_digits_all (cs : list Z) :
  forall acc,
    Forall (fun c => isxdigit c = true) cs ->
    hex_digits (string_of_list_ascii (map key_ascii cs)) acc
    = (fold_left (fun a c => a * 16 + xdigitval c) cs acc, EmptyString).
Proof.
  induction cs as [|c cs IH]; intros acc Hall; [reflexivity|].
  inversion Hall as [|? ? Hc Hcs]; subst.
  cbn [map string_of_list_ascii hex_digits fold_left].
  rewrite !chr_key_ascii by (apply isxdigit_range; exact Hc).
  rewrite Hc. apply IH. exact Hcs.
Qed.

Lemma fold_hex_bound (cs : list Z) :
  forall acc,
    0 <= acc -> Forall (fun c => isxdigit c = true) cs ->
    0 <= fold_left (fun a c => a * 16 + xdigitval c) cs acc
      < (acc + 1) * 16 ^ Z.of_nat (List.length cs).
Proof.
  induction cs as [|c cs IH]; intros acc Hacc Hall.
  - simpl. lia.
  - inversion Hall as [|? ? Hc Hcs]; subst.
    pose proof (xdigitval_range c Hc) as Hd.
    cbn [fold_left]. specialize (IH (acc * 16 + xdigitval c) ltac:(lia) Hcs).
    replace (Z.of_nat (List.length (c :: cs)))
      with (Z.of_nat (List.length cs) + 1) by (simpl; lia).
    rewrite Z.pow_add_r by lia.
    assert (0 < 16 ^ Z.of_nat (List.length cs)) by (apply Z.pow_pos_nonneg; lia).
    nia.
Qed.

Lemma strtoul16_digits (cs : list Z) :
  cs <> [] -> (List.length cs <= 15)%nat ->
  Forall (fun c => isxdigit c = true) cs ->
  strtoul16 (string_of_list_ascii (map key_ascii cs))
  = mkstrtoul (hexvalue cs) EmptyString true false.
Proof.
  intros Hne Hlen Hall.
  pose proof (hex_digits_all cs 0 Hall) as Hdig.
  pose proof (fold_hex_bound cs 0 ltac:(lia) Hall) as Hbound.
  fold (hexvalue cs) in Hdig, Hbound.
  assert (Hsmall : hexvalue cs <= ULONG_MAX).
  { assert (16 ^ Z.of_nat (List.length cs) <= 16 ^ 15)
      by (apply Z.pow_le_mono_r; lia).
    unfold ULONG_MAX. change (16 ^ 15) with 1152921504606846976 in *.
    change (2 ^ 64 - 1) with 18446744073709551615. lia. }
  destruct cs as [|c cs]; [congruence|].
  inversion Hall as [|? ? Hc Hcs]; subst.
  pose proof (isxdigit_range c Hc) as Hcr.
  cbn [map string_of_list_ascii] in *.
  set (tail := string_of_list_ascii (map key_ascii cs)) in *.
  unfold strtoul16. cbn [skip_space].
  rewrite (chr_key_ascii c Hcr).
  assert (Hsp : isspace c = false) by (unfold isspace, isxdigit in *; lia).
  rewrite Hsp.
  assert (Hm : (c =? chr "-") = false) by
    (change (chr "-") with 45; unfold isxdigit in Hc; lia).
  assert (Hp : (c =? chr "+") = false) by
    (change (chr "+") with 43; unfold isxdigit in Hc; lia).
  rewrite (chr_key_ascii c Hcr), Hm, Hp.
  assert (Hs3 : match String (key_ascii c) tail with
                | String z (String x s') =>
                    if (chr z =? chr "0") && ((chr x =? chr "x") || (chr x =? chr "X"))
                       && starts_xdigit s'
                    then s' else String (key_ascii c) tail
                | _ => String (key_ascii c) tail
                end = String (key_ascii c) tail).
  { destruct cs as [|c2 cs']; [reflexivity|].
    subst tail. cbn [map string_of_list_ascii].
    inversion Hcs as [|? ? Hc2 _]; subst.
    rewrite (chr_key_ascii c2 (isxdigit_range c2 Hc2)).
    assert (Hx : ((c2 =? chr "x") || (c2 =? chr "X")) = false)
      by (change (chr "x") with 120; change (chr "X") with 88;
          unfold isxdigit in Hc2; lia).
    rewrite Hx, andb_false_r. reflexivity. }
  rewrite Hs3. cbn [starts_xdigit]. rewrite (chr_key_ascii c Hcr), Hc.
  rewrite Hdig.
  destruct (Z.gtb_spec (hexvalue (c :: cs)) ULONG_MAX); [lia|reflexivity].
Qed.

(** typed hex digits *)
Lemma jumpui_typed (D : dataset) (index : Z) (g : globals) (scr : screen)
    (cs : list Z) (rest : list event) :
  cs <> [] -> (List.length cs <= 6)%nat ->
  Forall (fun c => isxdigit c = true) cs ->
  8 <= xtermsize g -> kill_char scr <> 13 ->
  jumpui D index g scr (map Key cs ++ Key 13 :: rest)
  = if hexvalue cs >? lastucharval then (index, g, beep scr, rest)
    else (lookupchar D (hexvalue cs), g, scr, rest).
Proof.
  intros Hne Hlen Hall Hw Hkill. unfold jumpui, doinputui. cbv zeta.
  change (Z.of_nat (String.length "U+")) with 2.
  rewrite (doinputui_loop_typed isxdigit 7 2 isxdigit_range cs rest []
             0 _ g scr eq_refl Hkill Hall ltac:(lia) eq_refl).
  - cbn [app]. fold key_ascii.
    rewrite (strtoul16_digits cs Hne ltac:(lia) Hall). cbn [st_value].
    destruct (Z.ltb_spec (0 + Z.of_nat (List.length cs)) 0); [lia|].
    destruct (hexvalue cs >? lastucharval); reflexivity.
  - destruct (xtermsize g - 2 >? 7 - 1) eqn:E; lia.
Qed.

Lemma jumpui_index_valid (D : dataset) (index : Z) (g : globals) (scr : screen)
    (evs : list event) :
  0 < charlistsize D -> valid_index D index ->
  valid_index D (fst (fst (fst (jumpui D index g scr evs)))).
Proof.
  intros Hsize Hi. unfold jumpui.
  destruct (doinputui 7 "U+" isxdigit g scr evs) as [[[[n buf] g'] scr'] rest].
  destruct (n <? 0); [exact Hi|].
  destruct (st_value (strtoul16 buf) >? lastucharval); [exact Hi|].
  apply lookupchar_range. exact Hsize.
Qed.

(** translatekey *)
Lemma translatekey_upper (k : Z) (g : globals) (scr : screen) :
  65 <= k <= 90 ->
  translatekey k g scr = translatekey (k + 32) g scr.
Proof.
  intros Hk.
  assert (Hn : exists n, (n < 26)%nat /\ k = 65 + Z.of_nat n).
  { exists (Z.to_nat (k - 65)). lia. }
  destruct Hn as (n & Hn & ->).
  do 26 (destruct n as [|n]; [reflexivity|]). lia.
Qed.

Lemma translatekey_globals (k : Z) (g : globals) (scr : screen) :
  k <> KEY_RESIZE -> snd (translatekey k g scr) = g.
Proof.
  intros Hk. unfold translatekey.
  destruct (Z.eqb_spec k KEY_RESIZE); [contradiction|].
  repeat match goal with |- context [if ?c then _ else _] => destruct c end;
    reflexivity.
Qed.

(** readuchar *)
Lemma readuchar_result (D : dataset) (input : string) :
  0 < charlistsize D ->
  readuchar D input = -1 \/ valid_index D (readuchar D input).
Proof.
  intros Hsize. unfold readuchar. cbv zeta.
  destruct (_ || _ || _); [left; reflexivity|].
  destruct (_ >? _); [left; reflexivity|].
  right. apply lookupchar_range. exact Hsize.
Qed.

Lemma readsinglecharstring_result (D : dataset) scan_lc (str : string) :
  0 < charlistsize D ->
  readsinglecharstring D scan_lc str = -1 \/
  valid_index D (readsinglecharstring D scan_lc str).
Proof.
  intros Hsize. unfold readsinglecharstring.
  destruct (scan_lc str) as [[c rest]|]; [|left; reflexivity].
  destruct (String.eqb rest EmptyString); [|left; reflexivity].
  right. apply lookupchar_range. exact Hsize.
Qed.

Lemma readcmdline_start_result (D : dataset) scan_lc (str : string) (g : globals) :
  0 < charlistsize D ->
  match readcmdline_start D scan_lc str g with
  | CmdReturn ch _ => valid_index D ch
  | CmdDie msg => msg = invalid_start str
  | _ => False
  end.
Proof.
  intros Hsize. unfold readcmdline_start. cbv zeta.
  destruct (readsinglecharstring_result D scan_lc str Hsize) as [->|Hv].
  2: { destruct (Z.ltb_spec (readsinglecharstring D scan_lc str) 0);
       [unfold valid_index in Hv; lia | exact Hv]. }
  cbn [Z.ltb Z.compare].
  destruct (readuchar_result D str Hsize) as [->|Hv].
  2: { destruct (Z.ltb_spec (readuchar D str) 0);
       [unfold valid_index in Hv; lia | exact Hv]. }
  cbn [Z.ltb Z.compare].
  unfold findcharbyname.
  destruct (Z.of_nat (String.length str) >=? 256 - 1); [reflexivity|].
  assert (H0 : valid_index D 0) by (unfold valid_index; lia).
  destruct (findchar_loop_round D 0 1 H0 (or_introl eq_refl) str
              (lastsubstring g) (S (List.length (charlist D))))
    as (pos & last' & Hrun & Hans).
  { unfold charlistsize. lia. }
  rewrite Hrun.
  destruct Hans as [(-> & _ & _)|(k & Hk & Hp & _ & _ & _)]; [reflexivity|].
  pose proof (circular_range D 0 1 H0 k) as Hr. subst pos.
  destruct (Z.ltb_spec (circular D 0 1 k) 0); [lia|exact Hr].
Qed.

Lemma readcmdline_extra_args (D : dataset) scan_lc (opts : list optevent)
    (a b : string) (more : list string) (g : globals) :
  forall ch g', readcmdline D scan_lc opts (a :: b :: more) g <> CmdReturn ch g'.
Proof.
  intros ch g'. unfold readcmdline.
  destruct (readcmdline_options D opts g) as [g1|r] eqn:Ho.
  - destruct (readcmdline_start D scan_lc a g1); discriminate.
  - revert g Ho. induction opts as [|o opts IH]; intros g Ho; [discriminate|].
    destruct o; cbn [readcmdline_options] in Ho.
    + destruct (accent_option D optarg g); [eapply IH; eassumption|].
      injection Ho as <-. discriminate.
    + eapply IH; eassumption.
    + injection Ho as <-. discriminate.
    + injection Ho as <-. discriminate.
    + injection Ho as <-. discriminate.
Qed.

(** mainui clamp *)
Lemma mainui_clamp_scroll (D : dataset) (index : Z) (g : globals) :
  let '(index', g', tablesize) := mainui_clamp D index g in
  (tablesize <= charlistsize D -> 0 <= index' <= charlistsize D - tablesize) /\
  (charlistsize D < tablesize -> index' = charlistsize D - tablesize).
Proof.
  unfold mainui_clamp. cbv zeta.
  set (g1 := if columncount g <? 1 then _ else _).
  set (ts := (ytermsize g1 - 1) * columncount g1).
  destruct (Z.ltb_spec index 0);
    destruct (Z.gtb_spec 0 (charlistsize D - ts));
    try destruct (Z.gtb_spec index (charlistsize D - ts)); split; lia.
Qed.

Lemma first_block_from_spec (bl : list blockinfo) :
  forall (i uc : Z) (j : nat),
    StronglySorted (fun a b => to a < from b) bl ->
    (j < List.length bl)%nat ->
    from (nth j bl noblock) <= uc <= to (nth j bl noblock) ->
    first_block_from bl i uc = i + Z.of_nat j.
Proof.
  induction bl as [|b bl IH]; intros i uc j Hs Hj Hin; [simpl in Hj; lia|].
  inversion Hs as [|? ? Hs' Hall]; subst.
  cbn [first_block_from].
  destruct j as [|j].
  - simpl in Hin. destruct (Z.geb_spec (to b) uc); lia.
  - simpl in Hin, Hj.
    assert (Hlt : to b < from (nth j bl noblock)).
    { rewrite Forall_forall in Hall. apply Hall, nth_In. lia. }
    destruct (Z.geb_spec (to b) uc); [lia|].
    rewrite (IH (i + 1) uc j Hs' ltac:(lia) Hin). lia.
Qed.

Lemma first_block_from_range (bl : list blockinfo) :
  forall i uc, i <= first_block_from bl i uc <= i + Z.of_nat (List.length bl).
Proof.
  induction bl as [|b bl IH]; intros i uc; cbn [first_block_from List.length].
  - lia.
  - destruct (to b >=? uc); [lia|]. specialize (IH (i + 1) uc). lia.
Qed.

(** blockselectui *)
Section BlockLoop.
Variable D : dataset.
Hypothesis Hsize : 0 < charlistsize D.

Lemma ui_ok_weaken (index : Z) (evs evs' : list event) (r : uiresult) :
  (List.length evs' <= List.length evs)%nat ->
  ui_ok D index evs' r -> ui_ok D index evs r.
Proof. destruct r; simpl; intuition lia. Qed.

Lemma blockselect_loop_ok (n : nat) :
  forall (evs : list event) (index selected : Z) (g : globals) (scr : screen),
    (List.length evs <= n)%nat ->
    ui_ok D index evs (blockselect_loop D evs index selected g scr).
Proof.
  induction n as [|n IH]; intros evs index selected g scr Hn.
  - destruct evs; [|simpl in Hn; lia]. simpl. exact I.
  - destruct evs as [|e evs]; [simpl; exact I|].
    simpl in Hn.
    assert (Hrec : forall sel g' scr',
               ui_ok D index (e :: evs) (blockselect_loop D evs index sel g' scr')).
    { intros. apply (ui_ok_weaken index (e :: evs) evs); [simpl; lia|].
      apply IH. lia. }
    assert (Hrec2 : forall sel g' scr',
               ui_ok D index (e :: evs)
                 match evs with
                 | [] => UINoInput g' scr'
                 | e2 :: evs'' =>
                     blockselect_loop D evs'' index sel g' (snd (deliver e2 scr'))
                 end).
    { intros. destruct evs as [|e2 evs'']; [exact I|].
      apply (ui_ok_weaken index (e :: e2 :: evs'') evs''); [simpl; lia|].
      apply IH. simpl in Hn. lia. }
    cbn [blockselect_loop]. cbv zeta.
    destruct (deliver e scr) as [key scr1].
    destruct (translatekey key g scr1) as [cmd g1].
    repeat match goal with
           | |- ui_ok _ _ _ (if ?c then _ else _) => destruct c
           | |- ui_ok _ _ _ (match unicodeversion D with _ => _ end) =>
               destruct (unicodeversion D) as [[|? ?]|]
           end;
      try apply Hrec; try apply Hrec2;
      try (simpl; split; [left; reflexivity | lia]);
      try reflexivity.
    simpl. split; [right; apply lookupchar_range; exact Hsize | lia].
Qed.

End BlockLoop.

(** * Drawing *)

Lemma length_substring (s : string) :
  forall n m, (n + m <= String.length s)%nat ->
              String.length (substring n m s) = m.
Proof.
  induction s as [|c s IH]; intros n m H.
  - simpl in H. destruct n, m; simpl; lia.
  - destruct n as [|n].
    + destruct m as [|m]; [reflexivity|]. simpl in *. rewrite IH; lia.
    + simpl in *. apply IH. lia.
Qed.

Lemma length_zero_pad (n : nat) (s : string) :
  String.length (zero_pad n s) = (n + String.length s)%nat.
Proof. induction n; simpl; lia. Qed.

Lemma sprintf_04X_length (v : Z) : (5 <= String.length (sprintf_04X v))%nat.
Proof.
  unfold sprintf_04X. cbv zeta. cbn [String.length].
  rewrite length_zero_pad. lia.
Qed.

Lemma length_addnstr (str : string) (n : Z) :
  (List.length (addnstr str n) <= Z.to_nat n)%nat.
Proof. unfold addnstr. rewrite length_map. apply firstn_le_length. Qed.

Lemma addnstr_no_ellipsis (str : string) (n : Z) : ~ In Ellipsis (addnstr str n).
Proof.
  unfold addnstr. intros H. apply in_map_iff in H.
  destruct H as (c & Hc & _). discriminate.
Qed.

Section EntryFacts.
Variable D : dataset.
Variable wcwidth : Z -> Z.

Lemma name_cells_length (index n : Z) :
  Z.of_nat (List.length (name_cells D index n)) <= Z.max n 1.
Proof.
  unfold name_cells. cbv zeta.
  set (size := namesize (char_at D index)).
  set (name := nameoffset (char_at D index)).
  destruct (Z.geb_spec n size) as [Hfit|Hcut].
  - pose proof (length_addnstr (buffer_at D name) size). lia.
  - destruct (Z.gtb_spec n 6) as [Hbig|Hsmall].
    + rewrite !length_app. cbn [List.length].
      pose proof (length_addnstr (buffer_at D name) (Z.quot n 2)).
      pose proof (length_addnstr
                    (buffer_at D (name + size - (n - (Z.quot n 2 + 1))))
                    (n - (Z.quot n 2 + 1))).
      pose proof (Z.quot_rem' n 2). pose proof (Z.rem_bound_pos n 2).
      lia.
    + rewrite length_app. cbn [List.length].
      destruct (Z.gtb_spec n 1).
      * pose proof (length_addnstr (buffer_at D (name + size - n + 1)) (n - 1)).
        lia.
      * simpl. lia.
Qed.

Lemma name_cells_ellipsis (index n : Z) :
  In Ellipsis (name_cells D index n) <-> n < namesize (char_at D index).
Proof.
  unfold name_cells. cbv zeta.
  destruct (Z.geb_spec n (namesize (char_at D index))) as [Hfit|Hcut].
  - split; [|lia]. intros H. exfalso. exact (addnstr_no_ellipsis _ _ H).
  - split; [intros _; exact Hcut|]. intros _.
    destruct (n >? 6); apply in_or_app.
    + right. left. reflexivity.
    + left. left. reflexivity.
Qed.

Lemma glyph_width_bound (index : Z) (g : globals) :
  (forall c, wcwidth c <= 2) -> 0 <= glyph_width D wcwidth index g <= 2.
Proof.
  intros Hw. unfold glyph_width. cbv zeta.
  specialize (Hw (uchar (char_at D index))).
  destruct (Z.ltb_spec (wcwidth (uchar (char_at D index))) 0);
    destruct (_ && _ && _); lia.
Qed.

Lemma drawentry_layout (colwidth index : Z) (g : globals) (ed : entrydraw) :
  (forall c, wcwidth c <= 2) ->
  drawentry D wcwidth colwidth index g = Some ed ->
  String.length (ed_label ed) = 5%nat /\
  (forall cells, ed_name ed = Some cells ->
     6 + Z.of_nat (List.length cells) <= colwidth - glyph_width D wcwidth index g /\
     (In Ellipsis cells <->
      colwidth - 7 - glyph_width D wcwidth index g < namesize (char_at D index))) /\
  (forall col wch, ed_glyph ed = Some (col, wch) ->
     5 <= col /\ col + glyph_width D wcwidth index g = colwidth).
Proof.
  intros Hw Hdraw. unfold drawentry in Hdraw. cbv zeta in Hdraw.
  pose proof (glyph_width_bound index g Hw) as Hgw.
  pose proof (sprintf_04X_length (uchar (char_at D index))) as Hlen.
  set (buf := sprintf_04X (uchar (char_at D index))) in *.
  set (w := glyph_width D wcwidth index g) in *.
  destruct (Z.ltb_spec colwidth mincolumnwidth) as [|Hcol]; [discriminate|].
  unfold mincolumnwidth in Hcol.
  assert (Hlabel : String.length
                     (substring (Z.to_nat (Z.of_nat (String.length buf) - 5)) 5 buf)
                   = 5%nat) by (apply length_substring; lia).
  assert (Hname : forall cells,
             (if Z.of_nat (String.length buf) + 3 <? colwidth
              then Some (name_cells D index (colwidth - 7 - w)) else None)
             = Some cells ->
             6 + Z.of_nat (List.length cells) <= colwidth - w /\
             (In Ellipsis cells <-> colwidth - 7 - w < namesize (char_at D index))).
  { intros cells Hc.
    destruct (Z.ltb_spec (Z.of_nat (String.length buf) + 3) colwidth);
      [|discriminate].
    injection Hc as <-. split.
    - pose proof (name_cells_length index (colwidth - 7 - w)). lia.
    - apply name_cells_ellipsis. }
  destruct (Z.eqb_spec w 0) as [Hz|Hnz]; injection Hdraw as <-; cbn.
  - repeat split; try assumption; try apply Hname; try assumption;
      try discriminate.
    all: intros; try discriminate; apply (Hname cells); assumption.
  - split; [exact Hlabel|]. split; [exact Hname|].
    intros col wch Hg. injection Hg as <- _. lia.
Qed.
End EntryFacts.

(** drawtable *)
Lemma drawtable_columns_result (xt cw lr x i : Z) :
  0 < cw -> x <= xt ->
  exists calls,
    drawtable_columns xt cw lr x i
    = Some (calls, i + Z.of_nat (Z.to_nat lr) * ((xt - x) / cw)) /\
    Z.of_nat (List.length calls) = Z.of_nat (Z.to_nat lr) * ((xt - x) / cw) /\
    Forall (fun c => x <= call_x c /\ call_x c + cw <= xt /\
                     call_colwidth c = cw - 1) calls.
Proof.
  funelim (drawtable_columns xt cw lr x i); intros Hcw Hx.
  - exists []. rewrite Z.div_small by lia.
    repeat split; try (f_equal; f_equal; lia); try (simpl; lia). constructor.
  - (* one more column *)
    match goal with
    | IH : 0 < _ -> _ -> exists _, _ |- _ =>
        destruct (IH Hcw ltac:(lia)) as (calls & Hrun & Hlen & Hall)
    end.
    rewrite Hrun.
    assert (Hdiv : (xsize - x) / colwidth
                   = 1 + (xsize - (x + colwidth)) / colwidth).
    { replace (xsize - x) with (xsize - (x + colwidth) + 1 * colwidth)
        by lia.
      rewrite Z_div_plus_full by lia. lia. }
    eexists. split; [|split].
    + f_equal. f_equal. rewrite Hdiv. lia.
    + rewrite length_app. unfold drawtable_column at 1.
      rewrite length_map, length_seq. rewrite Hdiv. lia.
    + apply Forall_app. split.
      * unfold drawtable_column. apply Forall_forall. intros c Hc.
        apply in_map_iff in Hc. destruct Hc as (k & <- & _). cbn. lia.
      * eapply Forall_impl; [|exact Hall]. cbn. intros c Hc. lia.
  - lia.
Qed.

(** clamp facts *)
Lemma mainui_clamp_fields (D : dataset) (index : Z) (g : globals) :
  let '(index', g', tablesize) := mainui_clamp D index g in
  xtermsize g' = xtermsize g /\ ytermsize g' = ytermsize g /\
  lastrow g' = lastrow g /\ tablesize = (ytermsize g - 1) * columncount g' /\
  (10 <= xtermsize g ->
   1 <= columncount g' <= (xtermsize g - 1) / 9) /\
  (0 <= xtermsize g <= 9 -> 1 <= columncount g -> columncount g' = 0).
Proof.
  unfold mainui_clamp. cbv zeta. unfold mincolumnwidth. change (8 + 1) with 9.
  assert (Hq : 10 <= xtermsize g ->
               Z.quot (xtermsize g - 1) 9 = (xtermsize g - 1) / 9
               /\ 1 <= (xtermsize g - 1) / 9).
  { intros HW. split; [apply Z.quot_div_nonneg; lia|].
    apply Z.div_le_lower_bound; lia. }
  assert (Hs : 0 <= xtermsize g <= 9 -> Z.quot (xtermsize g - 1) 9 = 0).
  { intros HW. destruct (Z.eq_dec (xtermsize g) 0) as [->|]; [reflexivity|].
    apply Z.quot_small. lia. }
  destruct (Z.ltb_spec (columncount g) 1) as [H1|H1].
  - cbn. split; [reflexivity|]. split; [reflexivity|]. split; [reflexivity|].
    split; [reflexivity|]. split; [intros HW; destruct (Hq HW); lia | lia].
  - destruct (Z.gtb_spec (columncount g) (Z.quot (xtermsize g - 1) 9)) as [H2|H2];
      cbn; (split; [reflexivity|]); (split; [reflexivity|]);
      (split; [reflexivity|]); (split; [reflexivity|]);
      (split; [intros HW; destruct (Hq HW); lia
              | intros HW Hc; specialize (Hs HW); lia]).
Qed.

Lemma drawtable_clamped (D : dataset) (index : Z) (g : globals) :
  10 <= xtermsize g -> 1 <= ytermsize g -> lastrow g = ytermsize g - 1 ->
  let '(index', g', tablesize) := mainui_clamp D index g in
  let shown := lastrow g * (xtermsize g / (xtermsize g / columncount g')) in
  exists calls status,
    drawtable D index' g' = Drawn calls status (index' + shown) /\
    Z.of_nat (List.length calls) = shown /\
    tablesize <= shown /\
    (columncount g' < xtermsize g / (xtermsize g / columncount g') ->
     2 <= ytermsize g -> tablesize < shown).
Proof.
  intros HW Hy Hlast.
  pose proof (mainui_clamp_fields D index g) as Hf.
  destruct (mainui_clamp D index g) as [[index' g'] tablesize].
  destruct Hf as (Hx & Hyt & Hl & Hts & Hcc & _). specialize (Hcc HW).
  cbv zeta. unfold drawtable.
  destruct (Z.eqb_spec (columncount g') 0); [lia|].
  rewrite Hx, Hl. rewrite Z.quot_div_nonneg by lia.
  set (cc := columncount g') in *. set (W := xtermsize g) in *.
  assert (Hq : 9 <= W / cc).
  { apply Z.div_le_lower_bound; [lia|].
    assert (cc * 9 <= ((W - 1) / 9) * 9) by nia.
    pose proof (Z.mul_div_le (W - 1) 9 ltac:(lia)). lia. }
  assert (Hn : cc <= W / (W / cc)).
  { apply Z.div_le_lower_bound; [lia|].
    pose proof (Z.mul_div_le W cc ltac:(lia)). lia. }
  destruct (drawtable_columns_result W (W / cc) (lastrow g) 0 index'
              ltac:(lia) ltac:(lia)) as (calls & Hrun & Hlen & _).
  rewrite Hrun. rewrite Z.sub_0_r in *.
  rewrite Z2Nat.id in * by lia.
  eexists calls, _. split; [reflexivity|]. split; [exact Hlen|].
  rewrite Hts, Hlast. split; [nia|]. intros Hmore Hy2. nia.
Qed.

(** block list window *)
Lemma drawblocklist_window (D : dataset) (selected : Z) (g : globals) :
  valid_block D selected -> 3 <= ytermsize g ->
  lastrow g = ytermsize g - 1 -> lastrow g <= blocklistsize D ->
  let top := drawblocklist_top D selected g in
  0 <= top /\ top + lastrow g <= blocklistsize D /\
  top <= selected < top + lastrow g /\
  Z.of_nat (List.length (drawblocklist D selected g)) = lastrow g /\
  Forall (fun r => valid_block D (row_block r) /\
                   row_y r = row_block r - top /\
                   0 <= row_y r < lastrow g /\
                   row_standout r = (row_block r =? selected))
         (drawblocklist D selected g) /\
  In (mkblockrow (selected - top) selected true (emptyblock_at g selected))
     (drawblocklist D selected g).
Proof.
  intros Hsel Hy Hlast Hfit. unfold valid_block in *.
  assert (Htop : 0 <= drawblocklist_top D selected g /\
                 drawblocklist_top D selected g + lastrow g <= blocklistsize D /\
                 drawblocklist_top D selected g <= selected
                 < drawblocklist_top D selected g + lastrow g).
  { unfold drawblocklist_top. cbv zeta.
    pose proof (Z.quot_rem' (ytermsize g) 2).
    pose proof (Z.rem_bound_pos (ytermsize g) 2 ltac:(lia) ltac:(lia)).
    destruct (Z.ltb_spec (selected - Z.quot (ytermsize g) 2) 0);
      match goal with |- context [?a >? ?b] => destruct (Z.gtb_spec a b) end;
      lia. }
  cbv zeta. destruct Htop as (H0 & H1 & H2).
  repeat split; try lia.
  - unfold drawblocklist. cbv zeta. rewrite length_map, length_seq. lia.
  - unfold drawblocklist. cbv zeta. apply Forall_forall. intros r Hr.
    apply in_map_iff in Hr. destruct Hr as (k & <- & Hk).
    apply in_seq in Hk. cbn. unfold valid_block. repeat split; lia.
  - unfold drawblocklist. cbv zeta. apply in_map_iff.
    exists (Z.to_nat (selected - drawblocklist_top D selected g)). split.
    + rewrite Z2Nat.id by lia.
      replace (drawblocklist_top D selected g +
               (selected - drawblocklist_top D selected g)) with selected by lia.
      rewrite Z.eqb_refl. reflexivity.
    + apply in_seq. lia.
Qed.

Lemma isprint_range (c : Z) : isprint c = true -> 0 <= c < 256.
Proof. unfold isprint. lia. Qed.

Lemma doinputui_rest (validchar : Z -> bool) (inputsize : Z) (prompt : string)
    (g : globals) (scr : screen) (evs : list event) :
  1 <= inputsize -> (forall ch, validchar ch = true -> 0 <= ch < 256) ->
  input_ok validchar inputsize evs (doinputui inputsize prompt validchar g scr evs).
Proof.
  intros Hsize Hvalid. unfold doinputui. cbv zeta.
  apply doinputui_loop_ok; try assumption; try lia;
    try (simpl; lia); try (constructor; fail);
    destruct (_ >? _) eqn:E; lia.
Qed.

Lemma doinputui_enter (validchar : Z -> bool) (inputsize : Z) (prompt : string)
    (g : globals) (scr : screen) (rest : list event) :
  validchar 13 = false -> kill_char scr <> 13 ->
  doinputui inputsize prompt validchar g scr (Key 13 :: rest)
  = (0, EmptyString, g, scr, rest).
Proof.
  intros H13 Hkill. unfold doinputui. cbv zeta.
  cbn [doinputui_loop deliver].
  change (13 =? ERR) with false. rewrite H13. cbv zeta.
  destruct (Z.eqb_spec 13 (kill_char scr)) as [Hk|_]; [congruence|].
  reflexivity.
Qed.

Lemma memchr_substring (s : string) (c : ascii) :
  memchr s c = false -> forall n m, memchr (substring n m s) c = false.
Proof.
  induction s as [|a s IH]; intros H n m.
  - destruct n, m; reflexivity.
  - cbn [memchr] in H. apply orb_false_elim in H. destruct H as [Ha Hs].
    destruct n as [|n].
    + destruct m as [|m]; [reflexivity|].
      cbn [substring memchr]. rewrite Ha. apply IH. exact Hs.
    + cbn [substring]. apply IH. exact Hs.
Qed.

Lemma empty_never_matches (D : dataset) (pos : Z) :
  names_nul_free D -> name_matches D EmptyString pos = false.
Proof.
  intros H. unfold name_matches, name_at. cbn [first_char].
  rewrite (memchr_substring _ _ H). reflexivity.
Qed.

Lemma findchar_loop_empty (D : dataset) (fuel : nat) (startpos direction : Z)
    (last : string) :
  names_nul_free D ->
  forall pos0 r,
    findchar_loop D fuel EmptyString startpos direction pos0 last = Some r ->
    r = (-1, last).
Proof.
  intros H. induction fuel as [|fuel IH]; intros pos0 r Hrun; [discriminate|].
  cbn [findchar_loop] in Hrun. cbv zeta in Hrun.
  rewrite (empty_never_matches D _ H) in Hrun.
  destruct (_ =? startpos); [congruence|]. eapply IH. exact Hrun.
Qed.

Lemma searchui_empty_line (D : dataset) (index : Z) (g : globals)
    (scr : screen) (rest : list event) :
  kill_char scr <> 13 ->
  (lastsubstring g = EmptyString ->
   searchui D index 0 g scr (Key 13 :: rest) = SearchFault) /\
  (names_nul_free D ->
   forall i g' scr' rest',
     searchui D index 0 g scr (Key 13 :: rest) = SearchReturn i g' scr' rest' ->
     i = index /\ g' = g /\ scr' = beep scr /\ rest' = rest).
Proof.
  intros Hkill. unfold searchui. cbv zeta.
  change (negb (0 =? 0)) with false. cbv iota.
  rewrite (doinputui_enter isprint 256 "/" g scr rest eq_refl Hkill).
  change (0 <? 0) with false. change (0 =? 0) with true. cbv iota.
  split.
  - intros Hlast. unfold findcharbyname at 1. rewrite Hlast. reflexivity.
  - intros Hnul i g' scr' rest' Hrun.
    destruct (findcharbyname D _ None index 1 (lastsubstring g))
      as [[r last]|] eqn:Hfirst; [|discriminate].
    assert (Hlast : last = lastsubstring g).
    { unfold findcharbyname in Hfirst.
      destruct (negb _); [|congruence].
      destruct (findchar_loop_sound D _ _ _ _ _ _ _ _ Hfirst) as [[_ ->]|[_ ->]];
        reflexivity. }
    subst last.
    destruct ((r <? 0) || (r >? 256)); [discriminate|].
    unfold findcharbyname at 1 in Hrun. cbn [String.length Z.of_nat] in Hrun.
    change (0 >=? 256 - 1) with false in Hrun. cbv iota in Hrun.
    destruct (findchar_loop D _ EmptyString index 1 index (lastsubstring g))
      as [r2|] eqn:Hsecond; [|discriminate].
    rewrite (findchar_loop_empty D _ _ _ _ Hnul _ _ Hsecond) in Hrun.
    cbn in Hrun. injection Hrun as <- <- <- <-.
    repeat split. destruct g; reflexivity.
Qed.

Lemma lower_string_of_list (cs : list Z) :
  Forall (fun c => isprint c = true) cs ->
  lower_string (string_of_list_ascii (map key_ascii cs))
  = string_of_list_ascii (map (fun c => key_ascii (tolower c)) cs).
Proof.
  induction 1 as [|c cs Hc _ IH]; [reflexivity|].
  cbn [map string_of_list_ascii lower_string].
  rewrite (chr_key_ascii c (isprint_range c Hc)), IH. reflexivity.
Qed.

Lemma searchui_typed (D : dataset) (index : Z) (g : globals) (scr : screen)
    (cs : list Z) (rest : list event) :
  cs <> [] -> Forall (fun c => isprint c = true) cs ->
  Z.of_nat (List.length cs) <= Z.min 255 (xtermsize g - 1) ->
  kill_char scr <> 13 ->
  searchui D index 0 g scr (map Key cs ++ Key 13 :: rest)
  = searchui_finish index
      (findcharbyname D (S (List.length (charlist D)))
         (Some (string_of_list_ascii (map (fun c => key_ascii (tolower c)) cs)))
         index 1 (lastsubstring g))
      g scr rest.
Proof.
  intros Hne Hall Hfit Hkill. unfold searchui, doinputui. cbv zeta.
  cbn [negb Z.eqb]. change (Z.of_nat (String.length "/")) with 1.
  rewrite (doinputui_loop_typed isprint 256 1 isprint_range cs rest []
             0 _ g scr eq_refl Hkill Hall ltac:(lia) eq_refl).
  - cbn [app]. fold key_ascii.
    destruct (Z.ltb_spec (0 + Z.of_nat (List.length cs)) 0); [lia|].
    destruct (Z.eqb_spec (0 + Z.of_nat (List.length cs)) 0) as [Hz|_].
    { destruct cs; [congruence|simpl in Hz; lia]. }
    rewrite (lower_string_of_list cs Hall). reflexivity.
  - destruct (xtermsize g - 1 >? 256 - 1) eqn:E; lia.
Qed.

Lemma searchui_rest (D : dataset) (index repeat : Z) (g : globals) (scr : screen)
    (evs : list event) (i : Z) (g' : globals) (scr' : screen) (rest : list event) :
  searchui D index repeat g scr evs = SearchReturn i g' scr' rest ->
  (List.length rest <= List.length evs)%nat.
Proof.
  unfold searchui. cbv zeta.
  assert (Hfin : forall idx found g0 scr0 evs0,
             searchui_finish idx found g0 scr0 evs0 = SearchReturn i g' scr' rest ->
             rest = evs0).
  { intros idx [[n last]|] g0 scr0 evs0; cbn; [|discriminate].
    destruct (n <? 0); intros H; injection H as _ _ _ <-; reflexivity. }
  destruct (negb (repeat =? 0)).
  - intros H. apply Hfin in H. subst. lia.
  - pose proof (doinputui_rest isprint 256 "/" g scr evs ltac:(lia) isprint_range)
      as Hok.
    destruct (doinputui 256 "/" isprint g scr evs) as [[[[n s] g1] scr1] evs1].
    destruct Hok as (_ & _ & Hlen).
    destruct (n <? 0).
    { intros H. injection H as _ _ _ <-. exact Hlen. }
    destruct (n =? 0).
    + destruct (findcharbyname D _ None index 1 (lastsubstring g1))
        as [[r last]|]; [|discriminate].
      destruct ((r <? 0) || (r >? 256)); [discriminate|].
      intros H. apply Hfin in H. subst. exact Hlen.
    + intros H. apply Hfin in H. subst. exact Hlen.
Qed.

Lemma jumpui_rest (D : dataset) (index : Z) (g : globals) (scr : screen)
    (evs : list event) :
  (List.length (snd (jumpui D index g scr evs)) <= List.length evs)%nat.
Proof.
  unfold jumpui.
  pose proof (doinputui_rest isxdigit 7 "U+" g scr evs ltac:(lia) isxdigit_range)
    as Hok.
  destruct (doinputui 7 "U+" isxdigit g scr evs) as [[[[n s] g1] scr1] evs1].
  destruct Hok as (_ & _ & Hlen).
  destruct (n <? 0); [exact Hlen|].
  destruct (_ >? _); exact Hlen.
Qed.

Lemma getch_discard_rest (evs : list event) (scr : screen) :
  (List.length (fst (getch_discard evs scr)) <= List.length evs)%nat.
Proof. destruct evs; simpl; lia. Qed.

Lemma showversion_rest (D : dataset) (evs : list event) (scr : screen) :
  (List.length (fst (showversion D evs scr)) <= List.length evs)%nat.
Proof.
  unfold showversion. destruct (unicodeversion D) as [[|? ?]|];
    try apply getch_discard_rest; simpl; lia.
Qed.

Section MainLoop.
Variable D : dataset.
Hypothesis Hsize : 0 < charlistsize D.

Lemma mainui_loop_ok (fuel : nat) :
  forall (evs : list event) (index : Z) (g : globals) (scr : screen),
    (List.length evs < fuel)%nat ->
    main_ok (mainui_loop D fuel evs index g scr).
Proof.
  induction fuel as [|fuel IH]; intros evs index g scr Hfuel; [lia|].
  cbn [mainui_loop].
  destruct (mainui_clamp D index g) as [[index1 g1] tablesize].
  destruct (drawtable D index1 g1); try exact I.
  destruct evs as [|e evs]; [exact I|]. simpl in Hfuel.
  destruct (deliver e scr) as [key scr1].
  destruct (translatekey key g1 scr1) as [cmd g2].
  assert (Hrec : forall idx g' scr', main_ok (mainui_loop D fuel evs idx g' scr'))
    by (intros; apply IH; lia).
  repeat match goal with
         | |- main_ok (mainui_loop _ _ _ _ _ _) => apply Hrec
         | |- main_ok (if ?c then _ else _) => destruct c
         end; try exact I; try reflexivity.
  - destruct (searchui D index1 _ g2 scr1 evs) as [idx g' scr' rest| |] eqn:Hs;
      try exact I.
    apply IH. pose proof (searchui_rest _ _ _ _ _ _ _ _ _ _ Hs). lia.
  - pose proof (jumpui_rest D index1 g2 scr1 evs) as Hj.
    destruct (jumpui D index1 g2 scr1 evs) as [[[idx g'] scr'] rest].
    apply IH. simpl in Hj. lia.
  - pose proof (blockselect_loop_ok D Hsize (List.length evs) evs index1
                  (first_block_from (blocklist D) 0 (uchar (char_at D index1)))
                  (emptyblocksinit D g2) scr1 (le_n _)) as Hb.
    unfold blockselectui. cbv zeta.
    destruct (blockselect_loop D evs index1 _ _ scr1) as [idx g' scr' rest|s|];
      cbn in Hb |- *.
    + apply IH. lia.
    + exact Hb.
    + exact I.
  - pose proof (getch_discard_rest evs scr1) as Hg.
    destruct (getch_discard evs scr1) as [rest scr']. apply IH. simpl in Hg. lia.
  - pose proof (showversion_rest D evs scr1) as Hg.
    destruct (showversion D evs scr1) as [rest scr']. apply IH. simpl in Hg. lia.
Qed.

End MainLoop.

Lemma mainui_narrow (D : dataset) (index : Z) (g : globals) (scr : screen)
    (evs : list event) :
  0 <= xtermsize g <= 9 -> 1 <= columncount g ->
  mainui D index g scr evs = MainFault.
Proof.
  intros HW Hcc. unfold mainui. cbn [mainui_loop].
  pose proof (mainui_clamp_fields D index g) as Hf.
  destruct (mainui_clamp D index g) as [[index1 g1] tablesize].
  destruct Hf as (_ & _ & _ & _ & _ & Hz). specialize (Hz HW Hcc).
  unfold drawtable. rewrite Hz. reflexivity.
Qed.

(** ** The codepoint index, further *)

(** X1.  Whatever the order of a non-empty [charlist], [lookupchar]
    returns an index into it. *)
Theorem lookupchar_always_in_range (D : dataset) (x : Z) :
  charlist D <> [] -> valid_index D (lookupchar D x).
Proof. intros Hne. apply lookupchar_range, nonempty_size, Hne. Qed.

Lemma lookupchar_always_in_range_witness :
  valid_index sample (lookupchar sample 0x1F600).
Proof.
  apply (lookupchar_always_in_range sample 0x1F600). discriminate.
Defined.

(** X2.  With a strictly increasing [charlist], looking up the codepoint
    of an entry gives back the index of that entry. *)
Theorem lookupchar_finds_assigned (D : dataset) (k : Z) :
  sorted D -> valid_index D k -> lookupchar D (uchar (char_at D k)) = k.
Proof. intros Hs Hk. apply lookupchar_exact; assumption. Qed.

Lemma lookupchar_finds_assigned_witness :
  lookupchar sample (uchar (char_at sample 3)) = 3.
Proof.
  apply (lookupchar_finds_assigned sample 3); [solve_sorted | solve_valid].
Defined.

(** X3.  [lookupchar] is monotone on the values for which its [int]
    differences do not overflow: with 21-bit codepoints in the list, and
    for [x <= y] between [INT_MIN + 2^21] and [INT_MAX], the index for [y]
    is not below the index for [x]. *)
Theorem lookupchar_monotone (D : dataset) (x y : Z) :
  sorted D -> charlist D <> [] -> codepoints_21bit D ->
  - 2 ^ 31 + 2 ^ 21 <= x -> x <= y -> y < 2 ^ 31 ->
  lookupchar D x <= lookupchar D y.
Proof.
  intros Hs Hne _ _ Hxy _. apply lookupchar_mono; try assumption.
  apply nonempty_size, Hne.
Qed.

Lemma lookupchar_monotone_witness :
  lookupchar sample 0x0D80 <= lookupchar sample 0x0D84.
Proof.
  apply (lookupchar_monotone sample 0x0D80 0x0D84).
  - solve_sorted.
  - discriminate.
  - unfold codepoints_21bit. simpl. repeat constructor; simpl; lia.
  - lia.
  - lia.
  - lia.
Defined.

(** X4.  [offsetchar] never moves against the sign of the offset, for the
    offsets whose [int] sum with a 21-bit codepoint does not overflow
    (here those between -2^30 and 2^30, which include the 0x1000 of the
    keys): a positive offset does not lead to a lower index, a negative one
    not to a higher index. *)
Theorem offsetchar_keeps_direction (D : dataset) (i d : Z) :
  sorted D -> valid_index D i -> codepoints_21bit D ->
  - 2 ^ 30 <= d <= 2 ^ 30 ->
  (0 <= d -> i <= offsetchar D i d) /\ (d <= 0 -> offsetchar D i d <= i).
Proof.
  intros Hs Hi _ _.
  assert (Hsize : 0 < charlistsize D) by (unfold valid_index in Hi; lia).
  split; intros Hd.
  - apply offsetchar_forward; assumption.
  - apply offsetchar_backward; assumption.
Qed.

Lemma offsetchar_keeps_direction_witness :
  (0 <= 0x1000 -> 2 <= offsetchar sample 2 0x1000) /\
  (0x1000 <= 0 -> offsetchar sample 2 0x1000 <= 2).
Proof.
  apply (offsetchar_keeps_direction sample 2 0x1000).
  - solve_sorted.
  - solve_valid.
  - unfold codepoints_21bit. simpl. repeat constructor; simpl; lia.
  - lia.
Defined.

(** ** The name search, further *)

(** X5.  When some name contains the string (shorter than 255 bytes), the
    search finds a matching entry from every valid start index and in
    either direction, and saves the string; when one entry only matches,
    it is the one returned. *)
Theorem findcharbyname_finds_existing (D : dataset) (s : string)
    (startpos direction : Z) (last : string) (fuel : nat) (m : Z) :
  valid_index D startpos -> direction = 1 \/ direction = -1 ->
  (Z.to_nat (charlistsize D) <= fuel)%nat ->
  (String.length s < 255)%nat ->
  valid_index D m -> name_matches D s m = true ->
  exists pos,
    findcharbyname D fuel (Some s) startpos direction last = Some (pos, s) /\
    valid_index D pos /\ name_matches D s pos = true /\
    ((forall j, valid_index D j -> name_matches D s j = true -> j = m) ->
     pos = m).
Proof.
  intros Hstart Hdir Hfuel Hlen Hm Hmatch. unfold findcharbyname.
  destruct (Z.geb_spec (Z.of_nat (String.length s)) (256 - 1)); [lia|].
  destruct (findchar_loop_finds D startpos direction s last fuel m
              Hstart Hdir Hfuel Hm Hmatch) as (pos & Hrun & Hv & Hp).
  exists pos. split; [exact Hrun|]. split; [exact Hv|]. split; [exact Hp|].
  intros Huniq. apply Huniq; assumption.
Qed.

Lemma findcharbyname_finds_existing_witness :
  exists pos,
    findcharbyname sample 6 (Some "visarg"%string) 5 (-1) "" = Some (pos, "visarg"%string) /\
    valid_index sample pos /\ name_matches sample "visarg" pos = true /\
    ((forall j, valid_index sample j ->
                name_matches sample "visarg" j = true -> j = 3) ->
     pos = 3).
Proof.
  apply (findcharbyname_finds_existing sample "visarg" 5 (-1) "" 6 3).
  - solve_valid.
  - right. reflexivity.
  - vm_compute. lia.
  - simpl. lia.
  - solve_valid.
  - reflexivity.
Defined.

(** X6.  Whatever the start position and however long the loop is let
    run, an answer of [findcharbyname] is either -1 with the saved string
    untouched, or the index of an entry whose name matches, with the
    searched string saved. *)
Theorem findcharbyname_answer_sound (D : dataset) (substring : option string)
    (startpos direction : Z) (last : string) (fuel : nat)
    (pos : Z) (last' : string) :
  findcharbyname D fuel substring startpos direction last = Some (pos, last') ->
  (pos = -1 /\ last' = last) \/
  (name_matches D (searched substring last) pos = true /\
   last' = searched substring last).
Proof.
  unfold findcharbyname. destruct substring as [s|]; cbn [searched].
  - destruct (_ >=? _).
    + intros H. injection H as <- <-. left. split; reflexivity.
    + apply findchar_loop_sound.
  - destruct (negb _).
    + apply findchar_loop_sound.
    + intros H. injection H as <- <-. left. split; reflexivity.
Qed.

Lemma findcharbyname_answer_sound_witness :
  (2 = -1 /\ "sign"%string = ""%string) \/
  (name_matches sample (searched (Some "sign"%string) "") 2 = true /\
   "sign"%string = searched (Some "sign"%string) "").
Proof.
  apply (findcharbyname_answer_sound sample (Some "sign"%string) 3 1 "" 6 2 "sign").
  reflexivity.
Defined.

(** ** The command line, further *)

(** X7.  On a non-empty [charlist], [readuchar] returns -1 or a valid
    index. *)
Theorem readuchar_index_or_minus_one (D : dataset) (input : string) :
  charlist D <> [] ->
  readuchar D input = -1 \/ valid_index D (readuchar D input).
Proof. intros Hne. apply readuchar_result, nonempty_size, Hne. Qed.

Lemma readuchar_index_or_minus_one_witness :
  readuchar sample "U+0D83" = -1 \/ valid_index sample (readuchar sample "U+0D83").
Proof.
  apply (readuchar_index_or_minus_one sample "U+0D83"). discriminate.
Defined.

(** X8.  With one positional argument and no option, [readcmdline] on a
    non-empty [charlist] either returns a valid index or dies with the
    invalid-start-value message; the name search always comes back. *)
Theorem readcmdline_position_valid (D : dataset)
    (scan_lc : string -> option (Z * string)) (str : string) (g : globals) :
  charlist D <> [] ->
  match readcmdline D scan_lc [] [str] g with
  | CmdReturn ch _ => valid_index D ch
  | CmdDie msg => msg = invalid_start str
  | _ => False
  end.
Proof.
  intros Hne. unfold readcmdline. cbn [readcmdline_options].
  pose proof (readcmdline_start_result D scan_lc str g (nonempty_size D Hne))
    as Hr.
  destruct (readcmdline_start D scan_lc str g); exact Hr.
Qed.

Lemma readcmdline_position_valid_witness :
  match readcmdline sample scan_lc_C [] ["visarg"%string] initial_globals with
  | CmdReturn ch _ => valid_index sample ch
  | CmdDie msg => msg = invalid_start "visarg"
  | _ => False
  end.
Proof.
  apply (readcmdline_position_valid sample scan_lc_C "visarg" initial_globals).
  discriminate.
Defined.

(** X9.  With two or more positional arguments [readcmdline] never
    returns a start position, whatever the options and the arguments
    are. *)
Theorem readcmdline_extra_arguments_die (D : dataset)
    (scan_lc : string -> option (Z * string)) (opts : list optevent)
    (a b : string) (more : list string) (g : globals) (ch : Z) (g' : globals) :
  readcmdline D scan_lc opts (a :: b :: more) g <> CmdReturn ch g'.
Proof. apply readcmdline_extra_args. Qed.

(** ** The block list, further *)

(** X10.  When the blocks follow one another without overlap and the
    codepoint lies within block [j], the scan at the start of
    [blockselectui] selects block [j]. *)
Theorem blockselectui_starts_on_containing_block (D : dataset) (uc j : Z) :
  blocks_ordered D -> valid_block D j ->
  from (block_at D j) <= uc <= to (block_at D j) ->
  first_block_from (blocklist D) 0 uc = j.
Proof.
  intros Hs Hj Hin. unfold valid_block, blocklistsize in Hj.
  rewrite (first_block_from_spec (blocklist D) 0 uc (Z.to_nat j) Hs);
    [lia | lia | exact Hin].
Qed.

Lemma blockselectui_starts_on_containing_block_witness :
  first_block_from (blocklist sample) 0 (uchar (char_at sample 2)) = 1.
Proof.
  apply (blockselectui_starts_on_containing_block sample
           (uchar (char_at sample 2)) 1).
  - unfold blocks_ordered. simpl.
    repeat (constructor; simpl); reflexivity.
  - unfold valid_block, blocklistsize. simpl. lia.
  - simpl. lia.
Defined.

(** X11.  Entered at a valid index of a non-empty [charlist],
    [blockselectui] returns only after reading a key, with a valid index;
    when it ends the program the status is [EXIT_SUCCESS]. *)
Theorem blockselectui_returns_valid_index (D : dataset) (index : Z)
    (g : globals) (scr : screen) (evs : list event) :
  charlist D <> [] -> valid_index D index ->
  match blockselectui D index g scr evs with
  | UIReturn i _ _ rest =>
      valid_index D i /\ (List.length rest < List.length evs)%nat
  | UIExit status => status = EXIT_SUCCESS
  | UINoInput _ _ => True
  end.
Proof.
  intros Hne Hi. unfold blockselectui. cbv zeta.
  pose proof (blockselect_loop_ok D (nonempty_size D Hne) (List.length evs) evs
                index (first_block_from (blocklist D) 0 (uchar (char_at D index)))
                (emptyblocksinit D g) scr (le_n _)) as Hok.
  destruct (blockselect_loop D evs index _ _ scr); cbn in Hok |- *;
    try exact Hok.
  destruct Hok as [[-> | Hv] Hlen]; split; assumption.
Qed.

Lemma blockselectui_returns_valid_index_witness :
  match blockselectui sample 0 initial_globals vt80x24
                      [Key KEY_DOWN; Key 13] with
  | UIReturn i _ _ rest =>
      valid_index sample i /\ (List.length rest < 2)%nat
  | UIExit status => status = EXIT_SUCCESS
  | UINoInput _ _ => True
  end.
Proof.
  apply (blockselectui_returns_valid_index sample 0 initial_globals vt80x24
           [Key KEY_DOWN; Key 13]); [discriminate | solve_valid].
Defined.

(** X12.  On a screen of at least 3 rows that is not taller than the block
    list, [drawblocklist] draws [lastrow] lines, each a block of the list
    on its own row, and the selected block is among them, highlighted. *)
Theorem drawblocklist_window_shows_selection (D : dataset) (selected : Z)
    (g : globals) :
  valid_block D selected -> 3 <= ytermsize g ->
  lastrow g = ytermsize g - 1 -> lastrow g <= blocklistsize D ->
  let top := drawblocklist_top D selected g in
  0 <= top /\ top + lastrow g <= blocklistsize D /\
  top <= selected < top + lastrow g /\
  Z.of_nat (List.length (drawblocklist D selected g)) = lastrow g /\
  Forall (fun r => valid_block D (row_block r) /\
                   row_y r = row_block r - top /\
                   0 <= row_y r < lastrow g /\
                   row_standout r = (row_block r =? selected))
         (drawblocklist D selected g) /\
  In (mkblockrow (selected - top) selected true (emptyblock_at g selected))
     (drawblocklist D selected g).
Proof. apply drawblocklist_window. Qed.

Lemma drawblocklist_window_shows_selection_witness :
  let g := set_termsize initial_globals 3 40 in
  let top := drawblocklist_top sample 2 g in
  0 <= top /\ top + lastrow g <= blocklistsize sample /\
  top <= 2 < top + lastrow g /\
  Z.of_nat (List.length (drawblocklist sample 2 g)) = lastrow g /\
  Forall (fun r => valid_block sample (row_block r) /\
                   row_y r = row_block r - top /\
                   0 <= row_y r < lastrow g /\
                   row_standout r = (row_block r =? 2))
         (drawblocklist sample 2 g) /\
  In (mkblockrow (2 - top) 2 true (emptyblock_at g 2))
     (drawblocklist sample 2 g).
Proof.
  apply (drawblocklist_window_shows_selection sample 2
           (set_termsize initial_globals 3 40)).
  - unfold valid_block, blocklistsize. simpl. lia.
  - simpl. lia.
  - reflexivity.
  - unfold blocklistsize. simpl. lia.
Defined.

(** ** Keys and text input *)

(** X13.  [translatekey] treats an upper-case letter like its lower-case
    letter. *)
Theorem translatekey_ignores_case (k : Z) (g : globals) (scr : screen) :
  65 <= k <= 90 -> translatekey k g scr = translatekey (k + 32) g scr.
Proof. apply translatekey_upper. Qed.

Lemma translatekey_ignores_case_witness :
  translatekey 81 initial_globals vt80x24
  = translatekey (81 + 32) initial_globals vt80x24.
Proof. apply (translatekey_ignores_case 81 initial_globals vt80x24). lia. Defined.




(** X15.  Typing characters the prompt accepts, no more than fit on the
    line and in the buffer, and then Enter, returns exactly these
    characters, without a beep. *)
Theorem doinputui_returns_typed_text (validchar : Z -> bool) (inputsize : Z)
    (prompt : string) (g : globals) (scr : screen) (cs : list Z)
    (rest : list event) :
  (forall ch, validchar ch = true -> 0 <= ch < 256) ->
  validchar 13 = false -> kill_char scr <> 13 ->
  Forall (fun ch => validchar ch = true) cs ->
  Z.of_nat (List.length cs)
  <= Z.min (xtermsize g - Z.of_nat (String.length prompt)) (inputsize - 1) ->
  doinputui inputsize prompt validchar g scr (map Key cs ++ Key 13 :: rest)
  = (Z.of_nat (List.length cs), string_of_list_ascii (map key_ascii cs),
     g, scr, rest).
Proof.
  intros Hvalid H13 Hkill Hall Hfit. unfold doinputui. cbv zeta.
  rewrite (doinputui_loop_typed validchar inputsize _ Hvalid cs rest []
             0 _ g scr H13 Hkill Hall ltac:(lia) eq_refl).
  - reflexivity.
  - destruct (_ >? _) eqn:E; lia.
Qed.

Lemma doinputui_returns_typed_text_witness :
  doinputui 7 "U+" isxdigit (set_termsize initial_globals 24 80) vt80x24
            (map Key [chr "d"; chr "8"; chr "3"] ++ Key 13 :: [Key (chr "q")])
  = (Z.of_nat (List.length [chr "d"; chr "8"; chr "3"]),
     string_of_list_ascii (map key_ascii [chr "d"; chr "8"; chr "3"]),
     set_termsize initial_globals 24 80, vt80x24, [Key (chr "q")]).
Proof.
  apply (doinputui_returns_typed_text isxdigit 7 "U+"
           (set_termsize initial_globals 24 80) vt80x24
           [chr "d"; chr "8"; chr "3"] [Key (chr "q")]).
  - intros ch H. unfold isxdigit in H. lia.
  - reflexivity.
  - simpl. lia.
  - repeat constructor.
  - simpl. lia.
Defined.

(** X16.  Entered at a valid index of a non-empty [charlist], and while
    the terminal stays at least as wide as the two cells of the prompt (so
    that nothing is written outside [buf]), [jumpui] returns a valid
    index, whatever is typed. *)
Theorem jumpui_keeps_index_valid (D : dataset) (index : Z) (g : globals)
    (scr : screen) (evs : list event) :
  charlist D <> [] -> valid_index D index ->
  2 <= scr_cols scr -> resizes_keep 2 evs ->
  valid_index D (fst (fst (fst (jumpui D index g scr evs)))).
Proof.
  intros Hne Hi _ _.
  apply jumpui_index_valid; [apply nonempty_size, Hne | exact Hi].
Qed.

Lemma jumpui_keeps_index_valid_witness :
  valid_index sample
    (fst (fst (fst (jumpui sample 3 (set_termsize initial_globals 24 80)
                           vt80x24 [Key (chr "f"); Key 13])))).
Proof.
  apply (jumpui_keeps_index_valid sample 3 (set_termsize initial_globals 24 80)
           vt80x24 [Key (chr "f"); Key 13]).
  - discriminate.
  - solve_valid.
  - simpl. lia.
  - unfold resizes_keep. repeat constructor.
Defined.

(** X17.  On a terminal at least 8 cells wide, typing one to six hex
    digits and Enter at the prompt of [jumpui] goes to the entry nearest to
    the number typed, and beeps and stays when the number is above
    0x10FFFF. *)
Theorem jumpui_typed_digits (D : dataset) (index : Z) (g : globals)
    (scr : screen) (cs : list Z) (rest : list event) :
  cs <> [] -> (List.length cs <= 6)%nat ->
  Forall (fun c => isxdigit c = true) cs ->
  8 <= xtermsize g -> kill_char scr <> 13 ->
  jumpui D index g scr (map Key cs ++ Key 13 :: rest)
  = if hexvalue cs >? lastucharval then (index, g, beep scr, rest)
    else (lookupchar D (hexvalue cs), g, scr, rest).
Proof. apply jumpui_typed. Qed.

Lemma jumpui_typed_digits_witness :
  jumpui sample 0 (set_termsize initial_globals 24 80) vt80x24
         (map Key [chr "d"; chr "8"; chr "3"] ++ Key 13 :: [])
  = if hexvalue [chr "d"; chr "8"; chr "3"] >? lastucharval
    then (0, set_termsize initial_globals 24 80, beep vt80x24, [])
    else (lookupchar sample (hexvalue [chr "d"; chr "8"; chr "3"]),
          set_termsize initial_globals 24 80, vt80x24, []).
Proof.
  apply (jumpui_typed_digits sample 0 (set_termsize initial_globals 24 80)
           vt80x24 [chr "d"; chr "8"; chr "3"] []).
  - discriminate.
  - simpl. lia.
  - repeat constructor.
  - simpl. lia.
  - simpl. lia.
Defined.

(** ** searchui *)

(** X18.  Confirming an empty search line never moves the position.  When
    no search was saved before, the lowercasing loop of [searchui] starts
    from -1 and writes outside [searchstring].  When [searchui] does
    return (the name buffer holding no NUL), it returns the index it was
    given after a beep, with the globals unchanged. *)
Theorem searchui_empty_line_stays (D : dataset) (index : Z) (g : globals)
    (scr : screen) (rest : list event) :
  kill_char scr <> 13 ->
  (lastsubstring g = EmptyString ->
   searchui D index 0 g scr (Key 13 :: rest) = SearchFault) /\
  (names_nul_free D ->
   forall i g' scr' rest',
     searchui D index 0 g scr (Key 13 :: rest) = SearchReturn i g' scr' rest' ->
     i = index /\ g' = g /\ scr' = beep scr /\ rest' = rest).
Proof. apply searchui_empty_line. Qed.

Lemma searchui_empty_line_stays_witness :
  (lastsubstring initial_globals = EmptyString ->
   searchui sample 3 0 initial_globals vt80x24 (Key 13 :: []) = SearchFault) /\
  (names_nul_free sample ->
   forall i g' scr' rest',
     searchui sample 3 0 initial_globals vt80x24 (Key 13 :: [])
     = SearchReturn i g' scr' rest' ->
     i = 3 /\ g' = initial_globals /\ scr' = beep vt80x24 /\ rest' = []).
Proof.
  apply (searchui_empty_line_stays sample 3 initial_globals vt80x24 []).
  simpl. lia.
Defined.

(** X19.  Typing a search string that fits on the line and Enter searches
    forward for the string with every letter lowered: upper-case and
    lower-case input give the same search. *)
Theorem searchui_typed_is_lowercased (D : dataset) (index : Z) (g : globals)
    (scr : screen) (cs : list Z) (rest : list event) :
  cs <> [] -> Forall (fun c => isprint c = true) cs ->
  Z.of_nat (List.length cs) <= Z.min 255 (xtermsize g - 1) ->
  kill_char scr <> 13 ->
  searchui D index 0 g scr (map Key cs ++ Key 13 :: rest)
  = searchui_finish index
      (findcharbyname D (S (List.length (charlist D)))
         (Some (string_of_list_ascii (map (fun c => key_ascii (tolower c)) cs)))
         index 1 (lastsubstring g))
      g scr rest.
Proof. apply searchui_typed. Qed.

Lemma searchui_typed_is_lowercased_witness :
  searchui sample 0 0 (set_termsize initial_globals 24 80) vt80x24
           (map Key [chr "S"; chr "i"; chr "G"] ++ Key 13 :: [])
  = searchui_finish 0
      (findcharbyname sample (S (List.length (charlist sample)))
         (Some (string_of_list_ascii
                  (map (fun c => key_ascii (tolower c)) [chr "S"; chr "i"; chr "G"])))
         0 1 (lastsubstring (set_termsize initial_globals 24 80)))
      (set_termsize initial_globals 24 80) vt80x24 [].
Proof.
  apply (searchui_typed_is_lowercased sample 0
           (set_termsize initial_globals 24 80) vt80x24
           [chr "S"; chr "i"; chr "G"] []).
  - discriminate.
  - repeat constructor.
  - simpl. lia.
  - simpl. lia.
Defined.

(** ** Drawing the table *)

(** X20.  When no character is wider than 2 cells, what [drawentry] draws
    fits its column: the label has 5 cells; the name, drawn from cell 6
    on, ends before the glyph and holds the ellipsis exactly when the room
    left is less than the size of the name; the glyph starts at cell 5 or
    later and ends with the column. *)
Theorem drawentry_layout_fits (D : dataset) (wcwidth : Z -> Z)
    (colwidth index : Z) (g : globals) :
  (forall c, wcwidth c <= 2) ->
  match drawentry D wcwidth colwidth index g with
  | None => colwidth < mincolumnwidth
  | Some ed =>
      String.length (ed_label ed) = 5%nat /\
      (forall cells, ed_name ed = Some cells ->
         6 + Z.of_nat (List.length cells)
         <= colwidth - glyph_width D wcwidth index g /\
         (In Ellipsis cells <->
          colwidth - 7 - glyph_width D wcwidth index g
          < namesize (char_at D index))) /\
      (forall col wch, ed_glyph ed = Some (col, wch) ->
         5 <= col /\ col + glyph_width D wcwidth index g = colwidth)
  end.
Proof.
  intros Hw.
  destruct (drawentry D wcwidth colwidth index g) as [ed|] eqn:Hdraw.
  - apply (drawentry_layout D wcwidth colwidth index g ed Hw Hdraw).
  - unfold drawentry in Hdraw. cbv zeta in Hdraw.
    destruct (Z.ltb_spec colwidth mincolumnwidth); [assumption|].
    destruct (_ =? 0); discriminate.
Qed.

Lemma drawentry_layout_fits_witness :
  match drawentry sample wcwidth_one 19 3 initial_globals with
  | None => 19 < mincolumnwidth
  | Some ed =>
      String.length (ed_label ed) = 5%nat /\
      (forall cells, ed_name ed = Some cells ->
         6 + Z.of_nat (List.length cells)
         <= 19 - glyph_width sample wcwidth_one 3 initial_globals /\
         (In Ellipsis cells <->
          19 - 7 - glyph_width sample wcwidth_one 3 initial_globals
          < namesize (char_at sample 3))) /\
      (forall col wch, ed_glyph ed = Some (col, wch) ->
         5 <= col /\ col + glyph_width sample wcwidth_one 3 initial_globals = 19)
  end.
Proof.
  apply (drawentry_layout_fits sample wcwidth_one 19 3 initial_globals).
  intros c. unfold wcwidth_one. lia.
Defined.

(** X21.  On a terminal at least 10 cells wide, the table drawn after the
    clamping step of [mainui] has [W / (W / columncount)] columns of
    [lastrow] entries each; that is never less than [tablesize], and it is
    more when the quotient exceeds the column count. *)
Theorem drawtable_shows_whole_columns (D : dataset) (index : Z) (g : globals) :
  10 <= xtermsize g -> 1 <= ytermsize g -> lastrow g = ytermsize g - 1 ->
  let '(index', g', tablesize) := mainui_clamp D index g in
  let shown := lastrow g * (xtermsize g / (xtermsize g / columncount g')) in
  exists calls status,
    drawtable D index' g' = Drawn calls status (index' + shown) /\
    Z.of_nat (List.length calls) = shown /\
    tablesize <= shown /\
    (columncount g' < xtermsize g / (xtermsize g / columncount g') ->
     2 <= ytermsize g -> tablesize < shown).
Proof. apply drawtable_clamped. Qed.

Lemma drawtable_shows_whole_columns_witness :
  let g := set_termsize (set_columncount initial_globals 10) 3 99 in
  let '(index', g', tablesize) := mainui_clamp twelve 0 g in
  let shown := lastrow g * (xtermsize g / (xtermsize g / columncount g')) in
  exists calls status,
    drawtable twelve index' g' = Drawn calls status (index' + shown) /\
    Z.of_nat (List.length calls) = shown /\
    tablesize <= shown /\
    (columncount g' < xtermsize g / (xtermsize g / columncount g') ->
     2 <= ytermsize g -> tablesize < shown).
Proof.
  apply (drawtable_shows_whole_columns twelve 0
           (set_termsize (set_columncount initial_globals 10) 3 99)).
  - simpl. lia.
  - simpl. lia.
  - reflexivity.
Defined.

Lemma mainui_clamp_last_page (D : dataset) (index : Z) (g : globals) :
  snd (mainui_clamp D index g) <= charlistsize D ->
  charlistsize D - snd (mainui_clamp D index g) <= index ->
  fst (fst (mainui_clamp D index g))
  = charlistsize D - snd (mainui_clamp D index g).
Proof.
  unfold mainui_clamp. cbv zeta. cbn [fst snd].
  set (g1 := if columncount g <? 1 then _ else _).
  set (ts := (ytermsize g1 - 1) * columncount g1).
  intros Hts Hidx.
  destruct (Z.ltb_spec index 0);
    match goal with |- context [?a >? ?b] => destruct (Z.gtb_spec a b) end; lia.
Qed.

(** X22.  On the last page of the table the extra columns are read from
    after the end of [charlist]: when the quotient [W / (W / columncount)]
    exceeds the column count and the index stands at
    [charlistsize - tablesize] after the clamp, [drawtable] returns an [i]
    above [charlistsize], so that entry [i - 1], drawn and named on the
    status line, is not an entry of the list. *)
Theorem drawtable_last_page_overruns (D : dataset) (index : Z) (g : globals) :
  10 <= xtermsize g -> 2 <= ytermsize g -> lastrow g = ytermsize g - 1 ->
  columncount (snd (fst (mainui_clamp D index g)))
  < xtermsize g / (xtermsize g / columncount (snd (fst (mainui_clamp D index g)))) ->
  snd (mainui_clamp D index g) <= charlistsize D ->
  charlistsize D - snd (mainui_clamp D index g) <= index ->
  exists calls status i,
    drawtable D (fst (fst (mainui_clamp D index g)))
                (snd (fst (mainui_clamp D index g)))
    = Drawn calls status i /\
    charlistsize D < i /\ ~ valid_index D (i - 1).
Proof.
  intros HW Hy Hlast Hmore Hts Hidx.
  pose proof (drawtable_clamped D index g HW ltac:(lia) Hlast) as Hdraw.
  pose proof (mainui_clamp_last_page D index g Hts Hidx) as Hlastpage.
  destruct (mainui_clamp D index g) as [[index' g'] tablesize].
  cbn [fst snd] in *. cbv zeta in Hdraw.
  destruct Hdraw as (calls & status & Hrun & _ & _ & Hstrict).
  specialize (Hstrict Hmore Hy).
  eexists calls, status, _. split; [exact Hrun|].
  unfold valid_index. lia.
Qed.

Lemma drawtable_last_page_overruns_witness :
  exists calls status i,
    drawtable twelve
      (fst (fst (mainui_clamp twelve 2
                   (set_termsize (set_columncount initial_globals 10) 2 99))))
      (snd (fst (mainui_clamp twelve 2
                   (set_termsize (set_columncount initial_globals 10) 2 99))))
    = Drawn calls status i /\
    charlistsize twelve < i /\ ~ valid_index twelve (i - 1).
Proof.
  apply (drawtable_last_page_overruns twelve 2
           (set_termsize (set_columncount initial_globals 10) 2 99)).
  - simpl. lia.
  - simpl. lia.
  - reflexivity.
  - vm_compute. reflexivity.
  - vm_compute. discriminate.
  - vm_compute. discriminate.
Defined.

(** ** The main loop *)

(** X23.  After the clamping step of [mainui], when the table is not
    larger than [charlist] the index lies between 0 and
    [charlistsize - tablesize]; when the table is larger, the index is
    [charlistsize - tablesize], below 0. *)
Theorem mainui_scroll_clamp (D : dataset) (index : Z) (g : globals) :
  let '(index', g', tablesize) := mainui_clamp D index g in
  (tablesize <= charlistsize D -> 0 <= index' <= charlistsize D - tablesize) /\
  (charlistsize D < tablesize ->
   index' = charlistsize D - tablesize /\ index' < 0).
Proof.
  pose proof (mainui_clamp_scroll D index g) as H.
  destruct (mainui_clamp D index g) as [[index' g'] tablesize].
  destruct H as [H1 H2]. split; [exact H1|].
  intros Hbig. specialize (H2 Hbig). lia.
Qed.

(** X24.  On a terminal less than 10 cells wide, with a column count of at
    least 1, the clamping step sets the column count to 0 and [drawtable]
    divides by it: [mainui] faults before it reads a key. *)
Theorem mainui_narrow_terminal_faults (D : dataset) (index : Z) (g : globals)
    (scr : screen) (evs : list event) :
  0 <= xtermsize g <= 9 -> 1 <= columncount g ->
  mainui D index g scr evs = MainFault.
Proof. apply mainui_narrow. Qed.

Lemma mainui_narrow_terminal_faults_witness :
  mainui sample 0 (set_termsize initial_globals 24 9) vt80x24 [Key (chr "q")]
  = MainFault.
Proof.
  apply (mainui_narrow_terminal_faults sample 0
           (set_termsize initial_globals 24 9) vt80x24 [Key (chr "q")]).
  - simpl. lia.
  - simpl. lia.
Defined.

(** X25.  Every iteration of the loop of [mainui] reads at least one
    event: on a finite input and a non-empty [charlist], [mainui] needs no
    more iterations than there are events plus one, and when it ends the
    program the status is [EXIT_SUCCESS]. *)
Theorem mainui_ends_on_finite_input (D : dataset) (index : Z) (g : globals)
    (scr : screen) (evs : list event) :
  charlist D <> [] -> main_ok (mainui D index g scr evs).
Proof.
  intros Hne. unfold mainui.
  apply mainui_loop_ok; [apply nonempty_size, Hne | lia].
Qed.

Lemma mainui_ends_on_finite_input_witness :
  main_ok (mainui sample 0 (set_termsize initial_globals 3 40) vt80x24
             [Key (chr "}"); Key (chr "/"); Key (chr "S"); Key 13;
              Key (chr "j"); Key KEY_DOWN; Key 13; Key (chr "q")]).
Proof.
  apply (mainui_ends_on_finite_input sample 0
           (set_termsize initial_globals 3 40) vt80x24
           [Key (chr "}"); Key (chr "/"); Key (chr "S"); Key 13;
            Key (chr "j"); Key KEY_DOWN; Key 13; Key (chr "q")]).
  discriminate.
Defined.
